(** * Quick Cards: the deck model, the shuffle utility and the study session

    A shallow embedding of the TypeScript sources
    - [utils/shuffle.ts]            ([shuffleInPlace]),
    - [utils/storage.ts]            ([CardItem], [Deck], [defaultDeck], [loadDeck],
                                     [saveDeck], [hashDeck]),
    - [components/StudyView.tsx]    ([getActiveIndices], the session handlers
                                     and [progressPercent]),
    - [components/Card.tsx]         ([content]),
    - [components/EditView.tsx]     ([useDebounced], the card handlers,
                                     [importJSON], [exportJSON]),
    - [App.tsx]                     ([save], [onNew], [onExport]),
    followed by the properties the specification states about them, and by
    further properties of the code.

    Conventions.  JavaScript numbers that are array positions or counters
    are integers of [Z] (the cursor, the card indices, array lengths) or
    [nat] where the source uses them only to address an array (the loop
    indices of the shuffle); the quotient and the product of the progress
    are binary64 values of [SpecFloat].  Strings are [string]s holding the
    UTF-8 bytes of the text.  React state is passed explicitly: a handler is a function
    from the values of the render it closes over to the values of the next
    render. *)

From Stdlib Require Import ZArith Lia Ascii SpecFloat.
From stdpp Require Import list strings pretty sorting.

Local Open Scope Z_scope.

(** ** Strings: [String.prototype.trim] *)

Module JSString.

(** White space and line terminators of ECMAScript that take one byte in
    UTF-8: TAB, LF, VT, FF, CR and SP. *)
Definition is_space1 (c : ascii) : bool :=
  let n := nat_of_ascii c in
  ((9 <=? n)%nat && (n <=? 13)%nat) || (n =? 32)%nat.

(** Two bytes: U+00A0 (C2 A0). *)
Definition is_space2 (c1 c2 : ascii) : bool :=
  (nat_of_ascii c1 =? 194)%nat && (nat_of_ascii c2 =? 160)%nat.

(** Three bytes: U+1680 (E1 9A 80), U+2000..U+200A (E2 80 80..8A),
    U+2028, U+2029 (E2 80 A8, A9), U+202F (E2 80 AF), U+205F (E2 81 9F),
    U+3000 (E3 80 80) and U+FEFF (EF BB BF). *)
Definition is_space3 (c1 c2 c3 : ascii) : bool :=
  let n1 := nat_of_ascii c1 in
  let n2 := nat_of_ascii c2 in
  let n3 := nat_of_ascii c3 in
  ((n1 =? 225) && (n2 =? 154) && (n3 =? 128))%nat
  || ((n1 =? 226) && (n2 =? 128)
      && (((128 <=? n3) && (n3 <=? 138)) || (n3 =? 168) || (n3 =? 169) || (n3 =? 175)))%nat
  || ((n1 =? 226) && (n2 =? 129) && (n3 =? 159))%nat
  || ((n1 =? 227) && (n2 =? 128) && (n3 =? 128))%nat
  || ((n1 =? 239) && (n2 =? 187) && (n3 =? 191))%nat.

Section Strip.
Variable p1 : ascii → bool.
Variable p2 : ascii → ascii → bool.
Variable p3 : ascii → ascii → ascii → bool.

(** Drops the white space characters at the head of [s]. *)
Fixpoint strip (s : string) : string :=
  match s with
  | EmptyString => s
  | String c1 s1 =>
      if p1 c1 then strip s1
      else match s1 with
           | EmptyString => s
           | String c2 s2 =>
               if p2 c1 c2 then strip s2
               else match s2 with
                    | EmptyString => s
                    | String c3 s3 => if p3 c1 c2 c3 then strip s3 else s
                    end
           end
  end.
End Strip.

Definition trimStart (s : string) : string :=
  strip is_space1 is_space2 is_space3 s.

(** The same from the end: the bytes of a character are met last first. *)
Definition trimEnd (s : string) : string :=
  String.rev
    (strip is_space1 (λ c2 c1, is_space2 c1 c2) (λ c3 c2 c1, is_space3 c1 c2 c3)
       (String.rev s)).

Definition trim (s : string) : string := trimEnd (trimStart s).

End JSString.

(** ** The deck model ([utils/storage.ts]) *)

Inductive Direction := Q2A | A2Q.

Global Instance Direction_eq_dec : EqDecision Direction.
Proof. solve_decision. Defined.

(** [type CardItem = { q: string; a: string; archived?: boolean }]:
    [archived = None] is the absent field. *)
Record CardItem := mkCard {
  q : string;
  a : string;
  archived : option bool
}.

Record Defaults := mkDefaults {
  default_direction : Direction;
  default_shuffle : bool
}.

(** [type Deck]: the field [schemaVersion] has the literal type [1], so it
    carries no information and is written out only when the deck is
    serialized ([deck_to_json] below). *)
Record Deck := mkDeck {
  name : string;
  cards : list CardItem;
  defaults : Defaults
}.

Definition defaultDeck : Deck :=
  {| name := "Sample Set";
     cards := [ {| q := "Question"; a := "Answer"; archived := None |} ];
     defaults := {| default_direction := Q2A; default_shuffle := true |} |}.

(** Truthiness of [card.archived]. *)
Definition isArchived (card : CardItem) : bool :=
  match archived card with
  | Some b => b
  | None => false
  end.

Definition hasContent (card : CardItem) : bool :=
  (0 <? String.length (JSString.trim (q card) +:+ JSString.trim (a card)))%nat.

(** The callback of [cards.map] in [getActiveIndices]: the index of an
    active card, [-1] for the others. *)
Definition active_index (index : nat) (card : CardItem) : Z :=
  if negb (isArchived card) && hasContent card then Z.of_nat index else -1.

(** [getActiveIndices]: every card is mapped to its index or to [-1], and
    the non-negative entries are kept. *)
Definition getActiveIndices (cards : list CardItem) : list Z :=
  filter (λ index, 0 ≤ index) (imap active_index cards).

(** ** The shuffle utility ([utils/shuffle.ts]) *)

(** A value of [Math.random()]: a number [r] with [0 ≤ r < 1], given as a
    fraction. *)
Record random_number := mkRandom {
  rn_num : nat;
  rn_den : nat;
  rn_lt : (rn_num <? rn_den)%nat = true
}.

(** [Math.floor(r * k)] for a natural number [k].  The product is taken
    exactly; the double product of the source is rounded before the floor
    is taken, and lands in the same range [0 .. k-1]. *)
Definition floor_times (r : random_number) (k : nat) : nat :=
  (rn_num r * k / rn_den r)%nat.

(** [[arr[i], arr[j]] = [arr[j], arr[i]]]: the right-hand side is read
    first, then [arr[i]] and [arr[j]] are written in this order.  Both
    positions are inside the array wherever [shuffleInPlace] swaps
    ([shuffle_positions_in_range]); outside it the JavaScript array would
    grow, which a list does not model. *)
Definition swap {T} (arr : list T) (i j : nat) : list T :=
  match arr !! j, arr !! i with
  | Some aj, Some ai => <[j := ai]> (<[i := aj]> arr)
  | _, _ => arr
  end.

(** The loop [for (let i = arr.length - 1; i > startIndex; i--)], from the
    iteration with index [i] on.  [rand i] is the value [Math.random()]
    returns in the iteration with index [i]. *)
Fixpoint shuffle_loop {T} (rand : nat → random_number) (startIndex i : nat)
    (arr : list T) : list T :=
  match i with
  | O => arr
  | S i' =>
      if (startIndex <? i)%nat then
        let j := (floor_times (rand i) (i - startIndex + 1) + startIndex)%nat in
        shuffle_loop rand startIndex i' (swap arr i j)
      else arr
  end.

(** [shuffleInPlace(arr, startIndex = 0)]: [startIndex] is a position of
    the array (every call of the sources passes [0]); the result is the
    array after the call. *)
Definition shuffleInPlace {T} (rand : nat → random_number) (arr : list T)
    (startIndex : nat) : list T :=
  shuffle_loop rand startIndex (length arr - 1)%nat arr.

(** ** The study session ([components/StudyView.tsx]) *)

(** The four state variables of [StudyView]. *)
Record Session := mkSession {
  order : list Z;
  cursor : Z;
  flipped : bool;
  direction : Direction
}.

(** [arr[i]] for an integer [i]; [None] is [undefined]. *)
Definition array_get {T} (arr : list T) (i : Z) : option T :=
  if 0 <=? i then arr !! Z.to_nat i else None.

(** The effect on [[deck]]: it runs after the first render and after every
    render in which the [deck] prop is another object than before. *)
Definition initSession (rand : nat → random_number) (deck : Deck) : Session :=
  let indices := getActiveIndices (cards deck) in
  let indices :=
    if default_shuffle (defaults deck) then shuffleInPlace rand indices 0
    else indices in
  {| order := indices;
     cursor := 0;
     flipped := false;
     direction := default_direction (defaults deck) |}.

(** [const done = cursor >= order.length]. *)
Definition done (s : Session) : bool :=
  Z.of_nat (length (order s)) <=? cursor s.

(** [const currentIndex = done ? null : order[cursor]]: [null], [undefined]
    (a cursor outside the array) or a card index. *)
Inductive current := NullIndex | UndefinedIndex | CardIndex (index : Z).

Global Instance current_eq_dec : EqDecision current.
Proof. solve_decision. Defined.

Definition currentIndex (s : Session) : current :=
  if done s then NullIndex
  else match array_get (order s) (cursor s) with
       | Some index => CardIndex index
       | None => UndefinedIndex
       end.

(** [index === currentIndex] for a number [index]. *)
Definition is_current (c : current) (index : Z) : Prop := c = CardIndex index.

Global Instance is_current_dec c index : Decision (is_current c index).
Proof. unfold is_current. apply _. Defined.

Definition flipCard (s : Session) : Session :=
  {| order := order s; cursor := cursor s;
     flipped := negb (flipped s); direction := direction s |}.

Definition goToNext (s : Session) : Session :=
  if done s then s
  else
    let length_ := Z.of_nat (length (order s)) in
    {| order := order s;
       cursor := (let nextCursor := cursor s + 1 in
                  if length_ <? nextCursor then length_ else nextCursor);
       flipped := false;
       direction := direction s |}.

Definition goToPrevious (s : Session) : Session :=
  {| order := order s;
     cursor := (if cursor s <=? 0 then 0 else cursor s - 1);
     flipped := false;
     direction := direction s |}.

Definition reshuffleAll (rand : nat → random_number) (s : Session) : Session :=
  {| order := shuffleInPlace rand (order s) 0;
     cursor := 0;
     flipped := false;
     direction := direction s |}.

Definition toggleDirection (s : Session) : Session :=
  {| order := order s; cursor := cursor s; flipped := flipped s;
     direction := (if decide (direction s = Q2A) then A2Q else Q2A) |}.

(** [{ ...card, archived: true }]. *)
Definition archive (card : CardItem) : CardItem :=
  {| q := q card; a := a card; archived := Some true |}.

(** The callback of [deck.cards.map] in [archiveCurrentCard]:
    [index === currentIndex ? { ...card, archived: true } : card]. *)
Definition archive_at (c : current) (index : nat) (card : CardItem) : CardItem :=
  if decide (is_current c (Z.of_nat index)) then archive card else card.

(** [archiveCurrentCard]: the new values of the state variables and, when
    the handler gets past its guard, the call [onSave(updatedDeck, "Card
    archived")]. *)
Definition archiveCurrentCard (deck : Deck) (s : Session)
    : Session * option (Deck * string) :=
  if done s || bool_decide (currentIndex s = NullIndex) then (s, None)
  else
    let updatedDeck :=
      {| name := name deck;
         cards := imap (archive_at (currentIndex s)) (cards deck);
         defaults := defaults deck |} in
    let updatedOrder :=
      filter (λ index, ¬ is_current (currentIndex s) index) (order s) in
    let length_ := Z.of_nat (length updatedOrder) in
    ({| order := updatedOrder;
        cursor := (if length_ <=? cursor s then Z.max 0 (length_ - 1)
                   else cursor s);
        flipped := false;
        direction := direction s |},
     Some (updatedDeck, "Card archived")).

(** ** The application in study mode ([App.tsx] around [StudyView])

    [deck] is the state of [App], handed to [StudyView] as its prop;
    [stored] is the deck item of the local storage as [saveDeck] last wrote
    it and [live] the last message given to [announce]. *)
Record Study := mkStudy {
  deck : Deck;
  session : Session;
  stored : option Deck;
  live : option string
}.

(** [save]: [setDeck(updatedDeck); saveDeck(updatedDeck); announce(message)]. *)
Definition save (updatedDeck : Deck) (message : string) (app : Study) : Study :=
  {| deck := updatedDeck; session := session app;
     stored := Some updatedDeck; live := Some message |}.

(** The render that follows a click on "Got it": the state updates of the
    handler and of [save] are applied together. *)
Definition archive_render (app : Study) : Study :=
  match archiveCurrentCard (deck app) (session app) with
  | (s, None) =>
      {| deck := deck app; session := s; stored := stored app; live := live app |}
  | (s, Some (updatedDeck, message)) =>
      save updatedDeck message
        {| deck := deck app; session := s; stored := stored app; live := live app |}
  end.

(** Whether [archiveCurrentCard] called [onSave]: the deck prop of the next
    render is then a new object. *)
Definition deck_replaced (app : Study) : bool :=
  match snd (archiveCurrentCard (deck app) (session app)) with
  | Some _ => true
  | None => false
  end.

(** The effect on [[deck]] applied to the application state. *)
Definition deck_effect (rand : nat → random_number) (app : Study) : Study :=
  {| deck := deck app; session := initSession rand (deck app);
     stored := stored app; live := live app |}.

(** Mounting [StudyView] over a deck: the first render followed by the
    effect on [[deck]]. *)
Definition mount (rand : nat → random_number) (d : Deck)
    (stored : option Deck) (live : option string) : Study :=
  {| deck := d; session := initSession rand d; stored := stored; live := live |}.

(** The operations of the session, each with the random numbers it uses. *)
Inductive operation :=
| Flip
| Advance
| Retreat
| ArchiveCurrent (rand : nat → random_number)
| ReshuffleAll (rand : nat → random_number)
| ToggleDirection.

Definition with_session (f : Session → Session) (app : Study) : Study :=
  {| deck := deck app; session := f (session app);
     stored := stored app; live := live app |}.

(** One operation, up to the state in which the application waits for the
    next event: after "Got it" has replaced the deck, the effect on [[deck]]
    has run. *)
Definition step (app : Study) (o : operation) : Study :=
  match o with
  | Flip => with_session flipCard app
  | Advance => with_session goToNext app
  | Retreat => with_session goToPrevious app
  | ArchiveCurrent rand =>
      if deck_replaced app then deck_effect rand (archive_render app)
      else archive_render app
  | ReshuffleAll rand => with_session (reshuffleAll rand) app
  | ToggleDirection => with_session toggleDirection app
  end.

Definition run (app : Study) (ops : list operation) : Study :=
  foldl step app ops.

(** The states the application reaches in study mode. *)
Inductive reachable : Study → Prop :=
| reachable_mount rand d st lv : reachable (mount rand d st lv)
| reachable_step app o : reachable app → reachable (step app o).

(** ** Progress ([StudyView], lines 103-108)

    JavaScript numbers are IEEE 754 binary64 values.  The quotient and the
    product of [progressPercent] are rounded, so they are taken with the
    binary64 operations of [SpecFloat]. *)

Module JSNumber.

Definition prec : Z := 53.
Definition emax : Z := 1024.

(** The double nearest to an integer (the integer itself below [2^53]). *)
Definition of_Z (z : Z) : spec_float := binary_normalize prec emax z 0 false.

Definition div : spec_float → spec_float → spec_float := SFdiv prec emax.
Definition mul : spec_float → spec_float → spec_float := SFmul prec emax.

(** [Math.round]: the nearest integer, a tie going up; [None] stands for
    [NaN] and the infinities, which [Math.round] returns as they are. *)
Definition round (x : spec_float) : option Z :=
  match x with
  | S754_zero _ => Some 0
  | S754_finite s m e =>
      let v := if s then Z.neg m else Z.pos m in
      Some (if 0 <=? e then v * 2 ^ e
            else (v + 2 ^ (- e - 1)) / 2 ^ (- e))
  | S754_infinity _ | S754_nan => None
  end.

End JSNumber.

(** *** What the rounding of [SpecFloat] works on

    The operations of [SpecFloat] round a mantissa that is shifted right,
    with a round bit and a sticky bit for what was shifted out.  A record
    [mrs] stands for the rational [num/den] when [num/den] lies in the half
    unit that starts at [shr_m + shr_r/2], the sticky bit telling whether
    it is above the start. *)
Definition stands_for (mrs : shr_record) (num den : Z) : Prop :=
  let k := 2 * shr_m mrs + (if shr_r mrs then 1 else 0) in
  0 ≤ shr_m mrs
  ∧ k * den ≤ 2 * num < (k + 1) * den
  ∧ (shr_s mrs = false ↔ k * den = 2 * num).

(** The non-negative double with mantissa [m] and exponent [e]. *)
Definition SFresult (m e : Z) : spec_float :=
  match m with
  | Z0 => S754_zero false
  | Z.pos p => S754_finite false p e
  | Z.neg _ => S754_nan
  end.

(** [Math.round] as the exact reals have it: the nearest integer to
    [num/den], a tie going up. *)
Definition round_half_up (num den : Z) : Z := (2 * num + den) / (2 * den).

(** [activeIndices] is memoized on [deck.cards], so [totalActive] follows
    the deck of the current render. *)
Definition totalActive (app : Study) : Z :=
  Z.of_nat (length (getActiveIndices (cards (deck app)))).

Definition remaining (app : Study) : Z :=
  if done (session app) then 0
  else Z.of_nat (length (order (session app))) - cursor (session app).

Definition learned (app : Study) : Z := totalActive app - remaining app.

(** [totalActive === 0 ? 0 : Math.round((learned / totalActive) * 100)]. *)
Definition percent (learned totalActive : Z) : option Z :=
  if totalActive =? 0 then Some 0
  else JSNumber.round
         (JSNumber.mul (JSNumber.div (JSNumber.of_Z learned) (JSNumber.of_Z totalActive))
            (JSNumber.of_Z 100)).

Definition progressPercent (app : Study) : option Z :=
  percent (learned app) (totalActive app).


(** ** JavaScript values read from JSON documents *)

(** The values [JSON.parse] returns, together with [undefined], which a
    read of a missing property gives.  The members of an object are its own
    properties in the order of the document. *)
#[warnings="-register-all"]
Inductive value :=
| VUndefined
| VNull
| VBool (b : bool)
| VNumber (x : spec_float)
| VString (s : string)
| VArray (elements : list value)
| VObject (members : list (string * value)).

(** Own property [key] of an object: of several members with the same key
    [JSON.parse] keeps the last. *)
Fixpoint own_property (key : string) (members : list (string * value)) : option value :=
  match members with
  | [] => None
  | (k, v) :: rest =>
      match own_property key rest with
      | Some v' => Some v'
      | None => if String.eqb k key then Some v else None
      end
  end.

(** [v.key], for the property names the sources read ([schemaVersion],
    [name], [cards], [defaults], [direction], [shuffle], [q], [a],
    [archived]): no prototype defines one of them, so only an object can
    have it.  [None] is the [TypeError] of a read from [null] or
    [undefined]. *)
Definition get (v : value) (key : string) : option value :=
  match v with
  | VUndefined | VNull => None
  | VObject members => Some (default VUndefined (own_property key members))
  | VBool _ | VNumber _ | VString _ | VArray _ => Some VUndefined
  end.

(** [v?.key]. *)
Definition get_optional (v : value) (key : string) : value :=
  default VUndefined (get v key).

(** [Boolean(v)]. *)
Definition ToBoolean (v : value) : bool :=
  match v with
  | VUndefined | VNull => false
  | VBool b => b
  | VNumber (S754_zero _ | S754_nan) => false
  | VNumber _ => true
  | VString s => negb (String.eqb s "")
  | VArray _ | VObject _ => true
  end.

(** [v ?? d]. *)
Definition nullish_or (v d : value) : value :=
  match v with
  | VUndefined | VNull => d
  | _ => v
  end.

(** [v || d]. *)
Definition or_else (v d : value) : value := if ToBoolean v then v else d.

(** [v === 1]. *)
Definition is_one (v : value) : bool :=
  match v with
  | VNumber x => SFeqb x (JSNumber.of_Z 1)
  | _ => false
  end.

(** [Array.isArray(v)]. *)
Definition isArray (v : value) : bool :=
  match v with
  | VArray _ => true
  | _ => false
  end.

Section ToString.

(** [Number::toString]: the decimal digits the engine prints for a
    double.  Nothing below depends on which digits they are. *)
Variable Number_toString : spec_float → string.

(** [String(v)]; [None] is the [TypeError] of an object that cannot be
    converted: an object of a JSON document has the inherited [toString]
    unless a member of its own, never a function, hides it.  An array is
    joined with commas, [null] and [undefined] elements printing as the
    empty string. *)
Fixpoint ToString (v : value) : option string :=
  match v with
  | VUndefined => Some "undefined"
  | VNull => Some "null"
  | VBool b => Some (if b then "true" else "false")
  | VNumber x => Some (Number_toString x)
  | VString s => Some s
  | VArray elements =>
      (fix join (l : list value) : option string :=
         match l with
         | [] => Some ""
         | e :: rest =>
             s ← match e with
                 | VUndefined | VNull => Some ""
                 | _ => ToString e
                 end;
             match rest with
             | [] => Some s
             | _ :: _ => r ← join rest; Some (s +:+ "," +:+ r)
             end
         end) elements
  | VObject members =>
      match own_property "toString" members with
      | Some _ => None
      | None => Some "[object Object]"
      end
  end.

(** ** Import and export ([components/EditView.tsx]) *)

(** The working copy of [EditView]: its state variables [name], [cards],
    [direction] and [shuffle].  [name] is whatever [setName] was given:
    a string by its type, any truthy value of the document after an
    import. *)
Record Working := mkWorking {
  w_name : value;
  w_cards : list CardItem;
  w_direction : Direction;
  w_shuffle : bool
}.

(** The callback of [json.cards.map]. *)
Definition import_card (card : value) : option CardItem :=
  card_q ← get card "q";
  q_ ← ToString (nullish_or card_q (VString ""));
  card_a ← get card "a";
  a_ ← ToString (nullish_or card_a (VString ""));
  card_archived ← get card "archived";
  Some {| q := q_; a := a_; archived := Some (ToBoolean card_archived) |}.

(** The [try] block of [input.onchange], from the value [JSON.parse]
    returned: the state the setters install, or [None] when an exception
    is thrown before the first setter is reached. *)
Definition import_json (json : value) : option Working :=
  json_schemaVersion ← get json "schemaVersion";
  if negb (is_one json_schemaVersion) then None
  else
    json_cards ← get json "cards";
    match json_cards with
    | VArray elements =>
        importedCards ← mapM import_card elements;
        json_name ← get json "name";
        json_defaults ← get json "defaults";
        Some {| w_name := or_else json_name (VString "Imported Set");
                w_cards := importedCards;
                w_direction :=
                  (match get_optional json_defaults "direction" with
                   | VString s => if String.eqb s "A2Q" then A2Q else Q2A
                   | _ => Q2A
                   end);
                w_shuffle := ToBoolean (get_optional json_defaults "shuffle") |}
    | _ => None
    end.

(** [input.onchange]: [file] is [None] when no file was chosen, else the
    outcome of [JSON.parse] on the text of the file, [None] for a
    [SyntaxError].  The result is the working copy and the message given
    to [announce]. *)
Definition onchange (w : Working) (file : option (option value))
    : Working * option string :=
  match file with
  | None => (w, None)
  | Some parsed =>
      match parsed ≫= import_json with
      | Some imported => (imported, Some "Set imported")
      | None => (w, Some "Import failed")
      end
  end.

(** [importJSON]: the confirmation dialog, then the file chooser. *)
Definition importJSON (confirmed : bool) (file : option (option value))
    (w : Working) : Working * option string :=
  if confirmed then onchange w file else (w, None).

End ToString.

Definition direction_string (d : Direction) : string :=
  match d with
  | Q2A => "Q2A"
  | A2Q => "A2Q"
  end.

(** The values [JSON.stringify] writes.  A document is represented by the
    value it parses to: [JSON.parse] gives back what [JSON.stringify]
    wrote, for values made of objects, arrays, strings, booleans and finite
    numbers. *)
Definition card_to_json (card : CardItem) : value :=
  VObject ([("q", VString (q card)); ("a", VString (a card))]
           ++ match archived card with
              | Some b => [("archived", VBool b)]
              | None => []
              end).

Definition defaults_to_json (d : Direction) (shuffle : bool) : value :=
  VObject [("direction", VString (direction_string d)); ("shuffle", VBool shuffle)].

Definition deck_to_json (deck : Deck) : value :=
  VObject [("schemaVersion", VNumber (JSNumber.of_Z 1));
           ("name", VString (name deck));
           ("cards", VArray (card_to_json <$> cards deck));
           ("defaults", defaults_to_json (default_direction (defaults deck))
                                         (default_shuffle (defaults deck)))].

(** [const data: Deck = { schemaVersion: 1, name, cards, defaults: {
    direction, shuffle } }] of [exportJSON]. *)
Definition working_to_json (w : Working) : value :=
  VObject [("schemaVersion", VNumber (JSNumber.of_Z 1));
           ("name", w_name w);
           ("cards", VArray (card_to_json <$> w_cards w));
           ("defaults", defaults_to_json (w_direction w) (w_shuffle w))].

(** [exportJSON]: with [onExportHeader] (which [App] always passes) the
    document is [App]'s [onExport] of its deck, else it is made from the
    working copy. *)
Definition exportJSON (onExportHeader : option Deck) (w : Working) : value :=
  match onExportHeader with
  | Some deck => deck_to_json deck
  | None => working_to_json w
  end.

(** The working copy [EditView] starts from ([useState(deck.name)], ...). *)
Definition working_of_deck (deck : Deck) : Working :=
  {| w_name := VString (name deck);
     w_cards := cards deck;
     w_direction := default_direction (defaults deck);
     w_shuffle := default_shuffle (defaults deck) |}.

(** ** Loading the persisted deck ([utils/storage.ts]) *)

(** What [localStorage.getItem(KEY)] holds: nothing, the empty string, or a
    text with the outcome of [JSON.parse] on it. *)
Inductive item := Absent | Empty | Text (parsed : option value).

(** [loadDeck]: [None] is [null]; the object is returned as it was parsed
    ([obj as Deck]). *)
Definition loadDeck (raw : item) : option value :=
  match raw with
  | Absent | Empty => None
  | Text parsed =>
      obj ← parsed;
      obj_schemaVersion ← get obj "schemaVersion";
      if negb (is_one obj_schemaVersion) then None else Some obj
  end.

(** [loadDeck() ?? defaultDeck()] of [App]: the value adopted as the deck. *)
Definition initial_deck (raw : item) : value :=
  default (deck_to_json defaultDeck) (loadDeck raw).

(** ** The invariants of the data model *)

(** [0 ≤ cursor ≤ length(order)]. *)
Definition cursor_in_range (s : Session) : Prop :=
  0 ≤ cursor s ≤ Z.of_nat (length (order s)).

(** The session order holds the active indices of the deck of the render,
    each once, and the cursor is in range. *)
Definition consistent (app : Study) : Prop :=
  order (session app) ≡ₚ getActiveIndices (cards (deck app))
  ∧ cursor_in_range (session app).

(** ** The schema of a deck document *)

(** [schemaVersion == 1] with a sequence-typed [cards] field. *)
Definition valid_schema (json : value) : bool :=
  match get json "schemaVersion", get json "cards" with
  | Some version, Some cards_ => is_one version && isArray cards_
  | _, _ => false
  end.

(** A document an import has to refuse: malformed JSON, or a value that
    does not have the schema. *)
Definition invalid_document (parsed : option value) : Prop :=
  match parsed with
  | None => True
  | Some json => valid_schema json = false
  end.

(** What an import makes of a deck: an absent [archived] becomes [false]
    and an empty name becomes ["Imported Set"]. *)
Definition coerce_card (card : CardItem) : CardItem :=
  {| q := q card; a := a card; archived := Some (isArchived card) |}.

Definition coerce_deck (deck : Deck) : Deck :=
  {| name := (if String.eqb (name deck) "" then "Imported Set" else name deck);
     cards := coerce_card <$> cards deck;
     defaults := defaults deck |}.

(** ** What the card shows ([components/Card.tsx], [StudyView]) *)

(** [const currentCard = currentIndex === null ? null : deck.cards[currentIndex]];
    [None] is [null] or [undefined], for which nothing is rendered. *)
Definition currentCard (deck : Deck) (s : Session) : option CardItem :=
  match currentIndex s with
  | CardIndex index => array_get (cards deck) index
  | NullIndex | UndefinedIndex => None
  end.

(** The props [front] and [back] [StudyView] hands to [Card]. *)
Definition front (d : Direction) (card : CardItem) : string :=
  if decide (d = Q2A) then q card else a card.

Definition back (d : Direction) (card : CardItem) : string :=
  if decide (d = Q2A) then a card else q card.

(** [text || "—"]. *)
Definition or_dash (text : string) : string :=
  if String.eqb text "" then "—" else text.

(** [const content = flipped ? back || "—" : front || "—"] of [Card]. *)
Definition content (front_ back_ : string) (flipped_ : bool) : string :=
  if flipped_ then or_dash back_ else or_dash front_.

(** The text on the screen for the current card of a session. *)
Definition shown (s : Session) (card : CardItem) : string :=
  content (front (direction s) card) (back (direction s) card) (flipped s).

(** ** Editing the cards ([components/EditView.tsx]) *)

(** [Partial<CardItem>]: the fields a patch sets. *)
Record Patch := mkPatch {
  patch_q : option string;
  patch_a : option string;
  patch_archived : option bool
}.

(** [{ ...card, ...patch }]. *)
Definition spread (patch : Patch) (card : CardItem) : CardItem :=
  {| q := default (q card) (patch_q patch);
     a := default (a card) (patch_a patch);
     archived := match patch_archived patch with
                 | Some b => Some b
                 | None => archived card
                 end |}.

(** [addCard]: [[...previousCards, { q: "", a: "" }]]. *)
Definition addCard (previousCards : list CardItem) : list CardItem :=
  previousCards ++ [ {| q := ""; a := ""; archived := None |} ].

(** [array.filter((_, currentIndex) => keep(currentIndex))], from the
    position [currentIndex] on. *)
Fixpoint filter_index {T} (keep : nat → bool) (currentIndex : nat) (l : list T)
    : list T :=
  match l with
  | [] => []
  | x :: rest =>
      if keep currentIndex then x :: filter_index keep (S currentIndex) rest
      else filter_index keep (S currentIndex) rest
  end.

(** [deleteCard]: the cards whose position is not [index]. *)
Definition deleteCard (index : Z) (previousCards : list CardItem) : list CardItem :=
  filter_index (λ currentIndex, negb (Z.of_nat currentIndex =? index)) 0%nat
    previousCards.

(** [updateCard]: the card at [index] merged with the patch. *)
Definition updateCard (index : Z) (patch : Patch) (previousCards : list CardItem)
    : list CardItem :=
  imap (λ currentIndex card,
          if Z.of_nat currentIndex =? index then spread patch card else card)
       previousCards.

(** [setArchivedState]: [updateCard(index, { archived })]. *)
Definition setArchivedState (index : Z) (archived_ : bool)
    (previousCards : list CardItem) : list CardItem :=
  updateCard index
    {| patch_q := None; patch_a := None; patch_archived := Some archived_ |}
    previousCards.

(** The two lists [EditView] renders: the cards with their positions, those
    that are not archived and those that are. *)
Definition activeCards (cards_ : list CardItem) : list (CardItem * nat) :=
  filter (λ entry, isArchived (fst entry) = false)
    (imap (λ index card, (card, index)) cards_).

Definition archivedCards (cards_ : list CardItem) : list (CardItem * nat) :=
  filter (λ entry, isArchived (fst entry) = true)
    (imap (λ index card, (card, index)) cards_).

(** The list items of the active cards that are given [newCardRef], the
    item [addCard] scrolls to:
    [ref={index === activeCards.length - 1 ? newCardRef : null}]. *)
Definition newCardRef (cards_ : list CardItem) : list (CardItem * nat) :=
  filter (λ entry, Z.of_nat (snd entry)
                   = Z.of_nat (length (activeCards cards_)) - 1)
    (activeCards cards_).

(** ** Saving the deck ([utils/storage.ts]) *)

(** [saveDeck]: the item [localStorage.setItem(KEY, JSON.stringify(deck))]
    leaves under the key of the deck. *)
Definition saveDeck (deck : Deck) : item := Text (Some (deck_to_json deck)).

(** ** The hash of a deck ([utils/storage.ts]) *)

(** [ToInt32] and [ToUint32] of an integer. *)
Definition ToInt32 (x : Z) : Z := (x + 2 ^ 31) mod 2 ^ 32 - 2 ^ 31.

Definition ToUint32 (x : Z) : Z := x mod 2 ^ 32.

(** [x << 5] and [x ^ y] on integers: the operands are taken as signed
    32-bit integers, and so is the result. *)
Definition shl5 (x : Z) : Z := ToInt32 (Z.shiftl (ToInt32 x) 5).

Definition xor32 (x y : Z) : Z := Z.lxor (ToInt32 x) (ToInt32 y).

(** The body of the loop of [hashDeck]:
    [h = ((h << 5) + h) ^ json.charCodeAt(i)].  Both summands are integers
    of at most 32 bits, so the sum of the doubles is the sum of the
    integers. *)
Definition hash_step (h code : Z) : Z := xor32 (shl5 h + h) code.

(** The digits of [x.toString(36)] for an integer [0 ≤ x < 36 ^ fuel],
    before those in [acc]. *)
Fixpoint digits36 (fuel : nat) (x : Z) (acc : list Z) : list Z :=
  match fuel with
  | O => acc
  | S fuel =>
      let acc := x mod 36 :: acc in
      if x / 36 =? 0 then acc else digits36 fuel (x / 36) acc
  end.

(** The character of a digit: [0] to [9], then [a] to [z]. *)
Definition digit36 (d : Z) : ascii :=
  ascii_of_N (Z.to_N (if d <? 10 then 48 + d else 87 + d)).

(** [x.toString(36)] for an unsigned 32-bit integer. *)
Definition toString36 (x : Z) : string :=
  String.string_of_list_ascii (digit36 <$> digits36 7 x []).

(** [hashDeck], on the code units of [JSON.stringify(deck)]. *)
Definition hashDeck (json : list Z) : string :=
  toString36 (ToUint32 (foldl hash_step 5381 json)).

(** The state [exportedHash] of [App] after [onExport], and
    [dirtySinceExport = exportedHash !== hashDeck(deck)]. *)
Definition onExport (json : list Z) : option string := Some (hashDeck json).

Definition dirtySinceExport (exportedHash : option string) (json : list Z) : bool :=
  negb (bool_decide (exportedHash = Some (hashDeck json))).

(** The hash of Bernstein with exclusive or, on unsigned 32-bit integers:
    [h := (33 * h mod 2^32) xor code], from [5381]. *)
Definition djb2_xor (json : list Z) : Z :=
  foldl (λ h code, Z.lxor ((33 * h) mod 2 ^ 32) code) 5381 json.

(** ** The debounced save of the editor ([useDebounced], [EditView], [App]) *)

Module Autosave.

Section Debounced.
Variable T : Type.

(** [timerRef.current], and the timeouts of the window that are pending,
    the oldest first, each with its identifier and the call it makes: the
    callback with the arguments and the state it closes over.  All
    timeouts of a [useDebounced] have the same delay, so the oldest is the
    one that fires. *)
Record Timers := mkTimers {
  timerRef : option nat;
  timeouts : list (nat * T);
  next_timeout : nat
}.

(** [window.clearTimeout(id)]: nothing happens for a timeout that has
    fired. *)
Definition clearTimeout (id : nat) (pending : list (nat * T)) : list (nat * T) :=
  filter (λ entry, fst entry ≠ id) pending.

Definition trigger (call : T) (t : Timers) : Timers :=
  let pending :=
    match timerRef t with
    | Some id => clearTimeout id (timeouts t)
    | None => timeouts t
    end in
  {| timerRef := Some (next_timeout t);
     timeouts := pending ++ [(next_timeout t, call)];
     next_timeout := S (next_timeout t) |}.

Definition cancel (t : Timers) : Timers :=
  match timerRef t with
  | Some id =>
      {| timerRef := None; timeouts := clearTimeout id (timeouts t);
         next_timeout := next_timeout t |}
  | None => t
  end.

(** The delay of the oldest pending timeout has passed: its call is made.
    [timerRef] keeps the identifier. *)
Definition elapse (t : Timers) : option T * Timers :=
  match timeouts t with
  | [] => (None, t)
  | (id, call) :: rest =>
      (Some call,
       {| timerRef := timerRef t; timeouts := rest;
          next_timeout := next_timeout t |})
  end.

(** [React.useRef(null)] in a window without pending timeouts. *)
Definition fresh : Timers :=
  {| timerRef := None; timeouts := []; next_timeout := 0 |}.

(** What happens to a [useDebounced]. *)
Inductive timer_op := Trigger (call : T) | Cancel | Elapse.

Definition apply_op (t : Timers) (op : timer_op) : Timers :=
  match op with
  | Trigger call => trigger call t
  | Cancel => cancel t
  | Elapse => snd (elapse t)
  end.

(** At most one timeout is pending, and [timerRef] holds its identifier. *)
Definition one_pending (t : Timers) : Prop :=
  timeouts t = []
  ∨ ∃ id call, timerRef t = Some id ∧ timeouts t = [(id, call)].

End Debounced.

Arguments timerRef {T} _.
Arguments timeouts {T} _.
Arguments next_timeout {T} _.
Arguments clearTimeout {T} _ _.
Arguments trigger {T} _ _.
Arguments cancel {T} _.
Arguments elapse {T} _.
Arguments fresh {T}.
Arguments Trigger {T} _.
Arguments Cancel {T}.
Arguments Elapse {T}.
Arguments apply_op {T} _ _.
Arguments one_pending {T} _.

Section Editor.
Variable Number_toString : spec_float → string.

(** [EditView] inside [App]: the working copy, the [deck] of [App] (by the
    fields an [updatedDeck] is made of), the timers of [scheduleSave],
    whose calls are the callbacks of the renders that scheduled them, each
    given by the working copy it closes over, and the calls of [onSave] so
    far. *)
Record Editor := mkEditor {
  working : Working;
  deck_prop : Working;
  timers : Timers Working;
  saved : list Working
}.

(** At most one save is pending, and it closes over the working copy as
    it is. *)
Definition saves_current (ed : Editor) : Prop :=
  timeouts (timers ed) = []
  ∨ ∃ id, timerRef (timers ed) = Some id
          ∧ timeouts (timers ed) = [(id, working ed)].

(** A render of [EditView] and its effect on [[name, direction, shuffle,
    scheduleSave]]: [scheduleSave] is another function in every render,
    so the effect runs after every render. *)
Definition render (ed : Editor) : Editor :=
  {| working := working ed; deck_prop := deck_prop ed;
     timers := trigger (working ed) (timers ed); saved := saved ed |}.

(** Mounting [EditView] over the deck of [App]: a new [timerRef], the
    state taken from the deck, the first render. *)
Definition mount (deck : Working) (pending : Timers Working)
    (saved_ : list Working) : Editor :=
  render {| working := deck; deck_prop := deck;
            timers := {| timerRef := None; timeouts := timeouts pending;
                         next_timeout := next_timeout pending |};
            saved := saved_ |}.

(** The first mount, when [App] starts. *)
Definition start (deck : Working) : Editor := mount deck fresh [].

Inductive event :=
| Edit (w : Working)
| Timeout (remount : bool)
| Import (confirmed : bool) (file : option (option value))
| New (proceed : bool) (remount : bool)
| Study.

(** One event, up to the state in which the application waits for the
    next one.

    [Edit w]: setters install the values [w], not all of them the values
    of the state, and the view renders again.

    [Timeout remount]: the oldest pending timeout fires and its callback
    gives its deck to [onSave], that is to [save] of [App], which installs
    it with [setDeck].  [remount] tells whether the key [hashDeck(deck)]
    of [EditView] is another than before: then the view is unmounted, with
    the [cancel] of its cleanup, and mounted again over the new deck; else
    it renders again, and the effect on [[deck]] sets the state to the
    fields of the deck.

    [Import confirmed file]: [importJSON], which starts with
    [cancelSave()]; the setters of a successful import are followed by one
    render.

    [New proceed remount]: [handleNewClick], that is [cancelSave()] and
    [onNew] of [App], where [proceed] tells whether the deck was not dirty
    or the user confirmed; the cards of [defaultDeck()] are a new array, so
    that with the same key the effect on [[deck]] is followed by another
    render.

    [Study]: the user switches to study mode, which unmounts [EditView],
    and back, which mounts it over the deck of [App]. *)
Definition step (ed : Editor) (e : event) : Editor :=
  match e with
  | Edit w =>
      render {| working := w; deck_prop := deck_prop ed;
                timers := timers ed; saved := saved ed |}
  | Timeout remount =>
      match elapse (timers ed) with
      | (None, _) => ed
      | (Some updatedDeck, pending) =>
          if remount
          then mount updatedDeck (cancel pending) (saved ed ++ [updatedDeck])
          else {| working := updatedDeck; deck_prop := updatedDeck;
                  timers := trigger (working ed) pending;
                  saved := saved ed ++ [updatedDeck] |}
      end
  | Import confirmed file =>
      let pending := cancel (timers ed) in
      match importJSON Number_toString confirmed file (working ed) with
      | (imported, message) =>
          if bool_decide (message = Some "Set imported")
          then render {| working := imported; deck_prop := deck_prop ed;
                         timers := pending; saved := saved ed |}
          else {| working := working ed; deck_prop := deck_prop ed;
                  timers := pending; saved := saved ed |}
      end
  | New proceed remount =>
      let pending := cancel (timers ed) in
      let freshDeck := working_of_deck defaultDeck in
      if proceed
      then
        if remount
        then mount freshDeck (cancel pending) (saved ed ++ [freshDeck])
        else render {| working := freshDeck; deck_prop := freshDeck;
                       timers := trigger (working ed) pending;
                       saved := saved ed ++ [freshDeck] |}
      else {| working := working ed; deck_prop := deck_prop ed;
              timers := pending; saved := saved ed |}
  | Study => mount (deck_prop ed) (cancel (timers ed)) (saved ed)
  end.

Definition run (ed : Editor) (events : list event) : Editor :=
  foldl step ed events.

(** The states [EditView] reaches. *)
Inductive reachable : Editor → Prop :=
| reachable_start deck : reachable (start deck)
| reachable_step ed e : reachable ed → reachable (step ed e).

End Editor.

End Autosave.

(** ** The name of the exported file ([App], [EditView]) *)

(** [name.replace(/\s+/g, "_")] on the bytes of the name: every run of
    white space becomes one underscore.  [in_run] tells whether the
    character before was white space. *)
Fixpoint replace_spaces (in_run : bool) (s : string) : string :=
  let underscore (rest : string) : string :=
    if in_run then replace_spaces true rest
    else String "_" (replace_spaces true rest) in
  match s with
  | EmptyString => EmptyString
  | String c1 s1 =>
      if JSString.is_space1 c1 then underscore s1
      else match s1 with
           | EmptyString => String c1 EmptyString
           | String c2 s2 =>
               if JSString.is_space2 c1 c2 then underscore s2
               else match s2 with
                    | EmptyString => String c1 (replace_spaces false s1)
                    | String c3 s3 =>
                        if JSString.is_space3 c1 c2 c3 then underscore s3
                        else String c1 (replace_spaces false s1)
                    end
           end
  end.

(** [`${name.replace(/\s+/g, "_") || "quick_cards"}.json`]. *)
Definition download (name : string) : string :=
  (if String.eqb (replace_spaces false name) "" then "quick_cards"
   else replace_spaces false name) +:+ ".json".

(** ** Sample data *)

(** A source of random numbers that always returns [0]. *)
Definition zero_random : nat → random_number :=
  λ _, {| rn_num := 0; rn_den := 1; rn_lt := eq_refl |}.

Definition sample_card (n : string) : CardItem :=
  {| q := "Question " +:+ n; a := "Answer " +:+ n; archived := None |}.

(** A deck of three active cards, [shuffle = false], [direction = Q2A]. *)
Definition three_cards : Deck :=
  {| name := "Three cards";
     cards := [sample_card "1"; sample_card "2"; sample_card "3"];
     defaults := {| default_direction := Q2A; default_shuffle := false |} |}.

(** A deck of forty active cards, [shuffle = false]. *)
Definition forty_cards : Deck :=
  {| name := "Forty cards";
     cards := replicate 40 (sample_card "1");
     defaults := {| default_direction := Q2A; default_shuffle := false |} |}.

(** [Number::toString] for the sample documents, whose only numbers are
    integers: the decimal digits of the integer. *)
Definition sample_toString (x : spec_float) : string :=
  match JSNumber.round x with
  | Some z => pretty z
  | None => "NaN"
  end.

(** A stored document with the schema version and nothing else:
    [{"schemaVersion":1}]. *)
Definition version_only : value :=
  VObject [("schemaVersion", VNumber (JSNumber.of_Z 1))].

(** A document of another schema version: [{"schemaVersion":2, ...}]. *)
Definition version_two : value :=
  VObject [("schemaVersion", VNumber (JSNumber.of_Z 2));
           ("name", VString "Later format");
           ("cards", VArray [card_to_json (sample_card "1")]);
           ("defaults", defaults_to_json Q2A false)].

(** A deck with an empty name. *)
Definition unnamed_deck : Deck :=
  {| name := "";
     cards := [sample_card "1"];
     defaults := {| default_direction := A2Q; default_shuffle := true |} |}.

(** A document of the schema in which a card is [null]:
    [{"schemaVersion":1, "name":"Set", "cards":[{...}, null], ...}]. *)
Definition null_card : value :=
  VObject [("schemaVersion", VNumber (JSNumber.of_Z 1));
           ("name", VString "Set");
           ("cards", VArray [card_to_json (sample_card "1"); VNull]);
           ("defaults", defaults_to_json Q2A false)].

(** * Properties *)

(** ** The shuffle utility *)

Section Shuffle.
Context {T : Type}.
Implicit Types (arr : list T) (i j k : nat).

Lemma floor_times_lt r k : (0 < k)%nat → (floor_times r k < k)%nat.
Proof.
  intros Hk. unfold floor_times.
  pose proof (rn_lt r) as Hr. apply Nat.ltb_lt in Hr.
  apply Nat.Div0.div_lt_upper_bound. nia.
Qed.

(** Writing [x] at a position of the array is, up to the order,
    taking the old element out and putting [x] in. *)
Lemma insert_Permutation arr i x :
  (i < length arr)%nat → <[i:=x]> arr ≡ₚ x :: delete i arr.
Proof.
  intros Hi.
  rewrite insert_take_drop by done.
  rewrite delete_take_drop.
  by rewrite <-Permutation_middle.
Qed.

Lemma swap_length arr i j : length (swap arr i j) = length arr.
Proof.
  unfold swap. destruct (arr !! j), (arr !! i); try done.
  by rewrite !length_insert.
Qed.

Lemma swap_Permutation arr i j : swap arr i j ≡ₚ arr.
Proof.
  unfold swap.
  destruct (arr !! j) as [aj|] eqn:Hj; [|done].
  destruct (arr !! i) as [ai|] eqn:Hi; [|done].
  revert i j Hi Hj. induction arr as [|x arr IH]; intros i j Hi Hj; [done|].
  destruct i as [|i], j as [|j]; simpl in *.
  - by simplify_eq.
  - simplify_eq.
    rewrite insert_Permutation by eauto using lookup_lt_Some.
    rewrite (delete_Permutation arr j aj) at 2 by done.
    apply perm_swap.
  - simplify_eq.
    rewrite insert_Permutation by eauto using lookup_lt_Some.
    rewrite (delete_Permutation arr i ai) at 2 by done.
    apply perm_swap.
  - f_equiv. by apply IH.
Qed.

(** A swap of two positions leaves the others as they are. *)
Lemma swap_lookup_ne arr i j k :
  k ≠ i → k ≠ j → swap arr i j !! k = arr !! k.
Proof.
  intros Hi Hj. unfold swap.
  destruct (arr !! j), (arr !! i); try done.
  by rewrite !list_lookup_insert_ne.
Qed.

(** The position [shuffleInPlace] draws in the iteration with index [i]
    lies between [startIndex] and [i], so both positions of the swap are
    inside the array. *)
Lemma shuffle_positions_in_range rand startIndex i arr :
  (startIndex < i)%nat → (i < length arr)%nat →
  let j := (floor_times (rand i) (i - startIndex + 1) + startIndex)%nat in
  (startIndex ≤ j ≤ i)%nat ∧ is_Some (arr !! i) ∧ is_Some (arr !! j).
Proof.
  intros Hs Hi j.
  assert (floor_times (rand i) (i - startIndex + 1) < i - startIndex + 1)%nat
    by (apply floor_times_lt; lia).
  split; [lia|]. split; apply lookup_lt_is_Some; lia.
Qed.

Lemma shuffle_loop_Permutation rand startIndex i arr :
  shuffle_loop rand startIndex i arr ≡ₚ arr.
Proof.
  revert arr. induction i as [|i IH]; intros arr; [done|].
  cbn [shuffle_loop]. case_match; [|done].
  rewrite IH. apply swap_Permutation.
Qed.

Lemma shuffle_loop_lookup_lt rand startIndex i arr k :
  (k < startIndex)%nat →
  shuffle_loop rand startIndex i arr !! k = arr !! k.
Proof.
  intros Hk. revert arr. induction i as [|i IH]; intros arr; [done|].
  cbn [shuffle_loop]. case_match eqn:Hlt; [|done].
  apply Nat.ltb_lt in Hlt.
  rewrite IH. apply swap_lookup_ne; lia.
Qed.

Lemma shuffleInPlace_length rand arr startIndex :
  length (shuffleInPlace rand arr startIndex) = length arr.
Proof.
  apply Permutation_length, shuffle_loop_Permutation.
Qed.

(** C6.  For every array and every start index, the array after
    [shuffleInPlace(arr, startIndex)] is a permutation of the array
    before, and the elements at the positions below [startIndex] are
    those of the array before. *)
Theorem shuffleInPlace_permutation rand arr startIndex :
  shuffleInPlace rand arr startIndex ≡ₚ arr
  ∧ take startIndex (shuffleInPlace rand arr startIndex) = take startIndex arr.
Proof.
  split; [apply shuffle_loop_Permutation|].
  apply list_eq. intros k.
  destruct (decide (k < startIndex)%nat) as [Hk|Hk].
  - rewrite !lookup_take_lt by done.
    by apply shuffle_loop_lookup_lt.
  - rewrite !lookup_take_ge by lia. done.
Qed.

End Shuffle.

(** ** The active cards of a deck *)

Section ActiveIndices.
Implicit Types (cs : list CardItem) (c : current) (k : nat).

(** The entries kept for the cards from position [k] on lie between [k]
    and the end of the deck, and none comes twice. *)
Lemma active_from_spec k cs (f : nat → CardItem → Z) :
  (∀ i card, f i card = active_index (k + i) card) →
  NoDup (filter (λ index, 0 ≤ index) (imap f cs))
  ∧ ∀ x, x ∈ filter (λ index, 0 ≤ index) (imap f cs) →
         Z.of_nat k ≤ x < Z.of_nat (k + length cs).
Proof.
  revert k f. induction cs as [|card cs IH]; intros k f Hf.
  { split; [constructor|]. intros x Hx. by apply elem_of_nil in Hx. }
  destruct (IH (S k) (f ∘ S)) as [Hnd Hran].
  { intros i card'. simpl. rewrite Hf. f_equal. lia. }
  rewrite imap_cons, filter_cons.
  case_decide as Hhd; [|split; [done|]].
  - assert (f 0%nat card = Z.of_nat k) as Hk.
    { rewrite Hf in Hhd |- *. unfold active_index in *.
      case_match; [f_equal; lia | lia]. }
    rewrite Hk. split.
    + constructor; [|done]. intros Hin%Hran. lia.
    + intros x [->|Hin%Hran]%elem_of_cons; simpl; lia.
  - intros x Hin%Hran. simpl. lia.
Qed.

Lemma getActiveIndices_NoDup cs : NoDup (getActiveIndices cs).
Proof. apply (active_from_spec 0 cs active_index). done. Qed.

Lemma getActiveIndices_range cs x :
  x ∈ getActiveIndices cs → 0 ≤ x < Z.of_nat (length cs).
Proof. intros Hx. by apply (active_from_spec 0 cs active_index) in Hx. Qed.

(** Archiving the card at the current index takes this index, and no
    other, out of the active indices. *)
Lemma active_from_archive c k cs (f : nat → CardItem → Z)
    (g : nat → CardItem → CardItem) :
  (∀ i card, f i card = active_index (k + i) card) →
  (∀ i card, g i card = archive_at c (k + i) card) →
  filter (λ index, 0 ≤ index) (imap f (imap g cs))
  = filter (λ index, ¬ is_current c index)
      (filter (λ index, 0 ≤ index) (imap f cs)).
Proof.
  revert k f g. induction cs as [|card cs IH]; intros k f g Hf Hg; [done|].
  rewrite !imap_cons, !(filter_cons (λ index, 0 ≤ index)).
  rewrite (IH (S k) (f ∘ S) (g ∘ S)); cycle 1.
  { intros i card'. simpl. rewrite Hf. f_equal. lia. }
  { intros i card'. simpl. rewrite Hg. f_equal. lia. }
  rewrite Hg, !Hf. replace (k + 0)%nat with k by lia.
  unfold archive_at, active_index.
  destruct (decide (is_current c (Z.of_nat k))) as [Hc|Hc]; simpl;
    destruct (negb (isArchived card) && hasContent card); simpl;
    repeat case_decide; try lia; try done.
  - by rewrite filter_cons_False by tauto.
  - by rewrite filter_cons_True by done.
Qed.

Lemma getActiveIndices_archive c cs :
  getActiveIndices (imap (archive_at c) cs)
  = filter (λ index, ¬ is_current c index) (getActiveIndices cs).
Proof. by apply (active_from_archive c 0). Qed.

(** What [archive_at] does to the cards. *)
Lemma archive_at_lookup c cs (n : nat) :
  imap (archive_at c) cs !! n
  = (λ card, if decide (is_current c (Z.of_nat n)) then archive card else card)
      <$> cs !! n.
Proof. by rewrite list_lookup_imap. Qed.

End ActiveIndices.

(** ** The study session *)

Section StudySession.
Implicit Types (s : Session) (app : Study) (rand : nat → random_number).

Lemma is_current_CardIndex (x y : Z) : is_current (CardIndex x) y ↔ x = y.
Proof. unfold is_current. naive_solver. Qed.

Lemma filter_current_notin (l : list Z) (x : Z) :
  x ∉ l → filter (λ index, ¬ is_current (CardIndex x) index) l = l.
Proof.
  induction l as [|y l IH]; intros Hx; [done|].
  apply not_elem_of_cons in Hx as [Hne Hx].
  rewrite filter_cons_True by (rewrite is_current_CardIndex; done).
  by rewrite IH.
Qed.

(** Taking an index that occurs once out of a list shortens it by one. *)
Lemma filter_current_length (l : list Z) (x : Z) :
  NoDup l → x ∈ l →
  (length (filter (λ index, ¬ is_current (CardIndex x) index) l) + 1
   = length l)%nat.
Proof.
  induction 1 as [|y l Hy Hnd IH]; intros Hx; [by apply elem_of_nil in Hx|].
  destruct (decide (x = y)) as [->|Hne].
  - rewrite filter_cons_False by (rewrite is_current_CardIndex; tauto).
    rewrite filter_current_notin by done. simpl. lia.
  - rewrite filter_cons_True by (rewrite is_current_CardIndex; tauto).
    apply elem_of_cons in Hx as [?|Hx]; [done|].
    specialize (IH Hx). rewrite !length_cons. lia.
Qed.

(** In an active state with a cursor that is not negative, the current
    index is the entry of the order at the cursor. *)
Lemma currentIndex_active s :
  0 ≤ cursor s → done s = false →
  ∃ index, order s !! Z.to_nat (cursor s) = Some index
           ∧ array_get (order s) (cursor s) = Some index
           ∧ currentIndex s = CardIndex index.
Proof.
  intros Hc Hd. unfold currentIndex, array_get. rewrite Hd.
  unfold done in Hd. apply Z.leb_gt in Hd.
  destruct (lookup_lt_is_Some_2 (order s) (Z.to_nat (cursor s))) as [index Hi];
    [lia|].
  exists index. rewrite Hi.
  by rewrite (proj2 (Z.leb_le 0 (cursor s))) by done.
Qed.

(** *** The cursor stays in range *)

Lemma initSession_cursor rand d : cursor_in_range (initSession rand d).
Proof. unfold cursor_in_range. simpl. lia. Qed.

Lemma flipCard_cursor s : cursor_in_range s → cursor_in_range (flipCard s).
Proof. done. Qed.

Lemma toggleDirection_cursor s :
  cursor_in_range s → cursor_in_range (toggleDirection s).
Proof. done. Qed.

Lemma goToNext_cursor s : cursor_in_range s → cursor_in_range (goToNext s).
Proof.
  unfold cursor_in_range, goToNext, done. intros Hs.
  destruct (Z.leb_spec (Z.of_nat (length (order s))) (cursor s)); [done|].
  simpl. case_match; lia.
Qed.

Lemma goToPrevious_cursor s :
  cursor_in_range s → cursor_in_range (goToPrevious s).
Proof.
  unfold cursor_in_range, goToPrevious. simpl. intros Hs.
  destruct (Z.leb_spec (cursor s) 0); lia.
Qed.

Lemma reshuffleAll_cursor rand s : cursor_in_range (reshuffleAll rand s).
Proof. unfold cursor_in_range. simpl. lia. Qed.

Lemma archiveCurrentCard_cursor d s :
  cursor_in_range s → cursor_in_range (fst (archiveCurrentCard d s)).
Proof.
  unfold cursor_in_range, archiveCurrentCard. intros Hs.
  case_match; [done|]. simpl.
  destruct (Z.leb_spec
              (Z.of_nat (length (filter (λ index, ¬ is_current (currentIndex s) index)
                                   (order s))))
              (cursor s)); lia.
Qed.

Lemma archive_render_session app :
  session (archive_render app) = fst (archiveCurrentCard (deck app) (session app)).
Proof.
  unfold archive_render.
  by destruct (archiveCurrentCard (deck app) (session app)) as [s [[d m]|]].
Qed.

Lemma step_cursor app o :
  cursor_in_range (session app) → cursor_in_range (session (step app o)).
Proof.
  intros Hs. destruct o; simpl;
    auto using flipCard_cursor, goToNext_cursor, goToPrevious_cursor,
               reshuffleAll_cursor, toggleDirection_cursor.
  case_match; simpl; [apply initSession_cursor|].
  rewrite archive_render_session. by apply archiveCurrentCard_cursor.
Qed.

(** C5.  The cursor is in range, [0 ≤ cursor ≤ length(order)], after the
    session is initialized; every operation of the session keeps it in
    range, in the render that follows the handler of "Got it" as well as
    in the state the application settles in; and a session whose cursor is
    in range is done exactly when the cursor equals the length of the
    order. *)
Theorem cursor_invariant rand d st lv app o :
  cursor_in_range (session app) →
  cursor_in_range (session (mount rand d st lv))
  ∧ cursor_in_range (session (step app o))
  ∧ cursor_in_range (session (archive_render app))
  ∧ (done (session app) = true
     ↔ cursor (session app) = Z.of_nat (length (order (session app)))).
Proof.
  intros Hs. split; [apply initSession_cursor|].
  split; [by apply step_cursor|].
  split; [rewrite archive_render_session; by apply archiveCurrentCard_cursor|].
  unfold done, cursor_in_range in *. rewrite Z.leb_le. lia.
Qed.

(** *** The order holds the active indices of the deck *)

Lemma initSession_order rand d :
  order (initSession rand d) ≡ₚ getActiveIndices (cards d).
Proof.
  unfold initSession. simpl. case_match; [|done].
  apply shuffle_loop_Permutation.
Qed.

Lemma mount_consistent rand d st lv : consistent (mount rand d st lv).
Proof. split; [apply initSession_order | apply initSession_cursor]. Qed.

Lemma deck_effect_consistent rand app : consistent (deck_effect rand app).
Proof. split; [apply initSession_order | apply initSession_cursor]. Qed.

(** The guard of [archiveCurrentCard] lets an active session through. *)
Lemma archiveCurrentCard_active d s index :
  done s = false → currentIndex s = CardIndex index →
  archiveCurrentCard d s
  = ({| order := filter (λ i, ¬ is_current (CardIndex index) i) (order s);
        cursor :=
          (let length_ :=
             Z.of_nat (length (filter (λ i, ¬ is_current (CardIndex index) i)
                                 (order s))) in
           if length_ <=? cursor s then Z.max 0 (length_ - 1) else cursor s);
        flipped := false;
        direction := direction s |},
     Some ({| name := name d;
              cards := imap (archive_at (CardIndex index)) (cards d);
              defaults := defaults d |}, "Card archived")).
Proof.
  intros Hd Hc. unfold archiveCurrentCard. rewrite Hd, Hc. done.
Qed.

(** At the end of the session the handler does nothing. *)
Lemma archiveCurrentCard_done d s :
  done s = true → archiveCurrentCard d s = (s, None).
Proof. intros Hd. unfold archiveCurrentCard. by rewrite Hd. Qed.

Lemma archive_render_consistent app :
  consistent app → consistent (archive_render app).
Proof.
  intros [Hperm Hcur]. split.
  2:{ rewrite archive_render_session. by apply archiveCurrentCard_cursor. }
  unfold archive_render.
  destruct (archiveCurrentCard (deck app) (session app)) as [s' call] eqn:Hcall.
  unfold archiveCurrentCard in Hcall.
  case_match; simplify_eq; simpl; [done|].
  rewrite getActiveIndices_archive. by rewrite Hperm.
Qed.

Lemma step_consistent app o : consistent app → consistent (step app o).
Proof.
  intros Happ. destruct o; simpl.
  - done.
  - destruct Happ as [Hperm Hcur]. split; [|by apply goToNext_cursor].
    simpl. unfold goToNext. by case_match.
  - destruct Happ as [Hperm Hcur]. split; [done|by apply goToPrevious_cursor].
  - case_match; [apply deck_effect_consistent|].
    by apply archive_render_consistent.
  - destruct Happ as [Hperm Hcur]. split; [|apply reshuffleAll_cursor].
    simpl. rewrite <-Hperm. apply shuffle_loop_Permutation.
  - done.
Qed.

Lemma reachable_consistent app : reachable app → consistent app.
Proof.
  induction 1; [apply mount_consistent | by apply step_consistent].
Qed.

(** *** Archiving the current card *)

(** C4.  In an active state of the session ([cursor < length(order)],
    the order holding the active indices of the deck), "Got it" saves a
    deck in which the card at [order[cursor]] is archived and the other
    cards are as before; the handler takes this index out of the order,
    which gets shorter by exactly one, resets [flipped], and leaves the
    cursor as it is unless it would be at or past the end, where it
    becomes [max(0, length(order) - 1)]: the cursor never exceeds the
    length of the order.  The same holds of the length, of [flipped] and
    of the range of the cursor in the state the application settles in. *)
Theorem archiveCurrent_active rand app :
  consistent app → done (session app) = false →
  let s := session app in
  let next := fst (archiveCurrentCard (deck app) s) in
  let after := step app (ArchiveCurrent rand) in
  (∃ index card updatedDeck,
      array_get (order s) (cursor s) = Some index
      ∧ cards (deck app) !! Z.to_nat index = Some card
      ∧ snd (archiveCurrentCard (deck app) s) = Some (updatedDeck, "Card archived")
      ∧ cards updatedDeck !! Z.to_nat index = Some (archive card)
      ∧ (∀ n, n ≠ Z.to_nat index → cards updatedDeck !! n = cards (deck app) !! n)
      ∧ order next = filter (λ i, ¬ is_current (CardIndex index) i) (order s)
      ∧ (index ∉ order next)
      ∧ deck after = updatedDeck
      ∧ stored after = Some updatedDeck
      ∧ (index ∉ order (session after)))
  ∧ (length (order next) + 1 = length (order s))%nat
  ∧ flipped next = false
  ∧ cursor next
    = (if Z.of_nat (length (order next)) <=? cursor s
       then Z.max 0 (Z.of_nat (length (order next)) - 1) else cursor s)
  ∧ 0 ≤ cursor next ≤ Z.of_nat (length (order next))
  ∧ (length (order (session after)) + 1 = length (order s))%nat
  ∧ flipped (session after) = false
  ∧ 0 ≤ cursor (session after) ≤ Z.of_nat (length (order (session after))).
Proof.
  intros [Hperm Hcur] Hdone s next after.
  change (session app) with s in Hperm, Hcur, Hdone.
  destruct (currentIndex_active s) as (index & Hlook & Hget & Hci);
    [apply Hcur | done |].
  assert (index ∈ order s) as Hin by (apply list_elem_of_lookup; eauto).
  assert (NoDup (order s)) as Hnd
    by (rewrite Hperm; apply getActiveIndices_NoDup).
  assert (0 ≤ index < Z.of_nat (length (cards (deck app)))) as Hran
    by (apply getActiveIndices_range; by rewrite <-Hperm).
  destruct (lookup_lt_is_Some_2 (cards (deck app)) (Z.to_nat index))
    as [card Hcard]; [lia|].
  pose proof (archiveCurrentCard_active (deck app) s index Hdone Hci) as Harch.
  assert (after
          = deck_effect rand
              (save {| name := name (deck app);
                       cards := imap (archive_at (CardIndex index)) (cards (deck app));
                       defaults := defaults (deck app) |}
                    "Card archived"
                    {| deck := deck app; session := next;
                       stored := stored app; live := live app |})) as Hafter.
  { subst after next s. unfold step, deck_replaced, archive_render.
    by rewrite Harch. }
  assert (order (session after)
          ≡ₚ filter (λ i, ¬ is_current (CardIndex index) i) (order s)) as Hord.
  { rewrite Hafter. unfold deck_effect, save. cbn [session deck].
    rewrite initSession_order. cbn [cards].
    rewrite getActiveIndices_archive. by rewrite Hperm. }
  assert (index ∉ filter (λ i, ¬ is_current (CardIndex index) i) (order s))
    as Hout.
  { rewrite list_elem_of_filter, is_current_CardIndex. tauto. }
  subst next. rewrite Harch. cbn [fst snd order cursor flipped].
  split.
  { exists index, card, {| name := name (deck app);
                           cards := imap (archive_at (CardIndex index)) (cards (deck app));
                           defaults := defaults (deck app) |}.
    repeat split; try done.
    - simpl. rewrite archive_at_lookup, Hcard. simpl.
      rewrite decide_True; [done|]. apply is_current_CardIndex. lia.
    - intros n Hn. simpl. rewrite archive_at_lookup.
      destruct (cards (deck app) !! n) as [card'|]; [simpl|done].
      rewrite decide_False; [done|]. rewrite is_current_CardIndex. lia.
    - by rewrite Hafter.
    - by rewrite Hafter.
    - by rewrite Hord. }
  pose proof (filter_current_length (order s) index Hnd Hin) as Hlen.
  split; [done|]. split; [done|]. split; [done|].
  split.
  { destruct (Z.leb_spec
                (Z.of_nat (length (filter (λ i, ¬ is_current (CardIndex index) i)
                                     (order s))))
                (cursor s)); unfold cursor_in_range in Hcur; lia. }
  split; [by rewrite Hord|].
  rewrite Hafter. simpl. lia.
Qed.

(** *** Reshuffling *)

(** C10.  [reshuffleAll], from an active state or from the end of the
    session, replaces the order by a permutation of the order it had (so
    an index archived earlier does not come back), sets the cursor to [0]
    and [flipped] to [false], and leaves the deck alone; when the order
    is empty the session is done afterwards as it was before. *)
Theorem reshuffleAll_permutation rand app :
  let after := step app (ReshuffleAll rand) in
  order (session after) ≡ₚ order (session app)
  ∧ cursor (session after) = 0
  ∧ flipped (session after) = false
  ∧ deck after = deck app
  ∧ done (session after) = bool_decide (order (session app) = []).
Proof.
  simpl. split; [apply shuffle_loop_Permutation|].
  repeat split. unfold done. simpl. rewrite shuffleInPlace_length.
  case_bool_decide as Hempty; [by rewrite Hempty|].
  apply Z.leb_gt. destruct (order (session app)); [done|].
  rewrite length_cons. lia.
Qed.

(** *** The scenario of three cards *)

(** "Got it" in an active state: [save] installs the deck with the card
    archived and the effect on [[deck]] starts the session again. *)
Lemma step_archive_active rand app index :
  done (session app) = false → currentIndex (session app) = CardIndex index →
  step app (ArchiveCurrent rand)
  = deck_effect rand
      (save {| name := name (deck app);
               cards := imap (archive_at (CardIndex index)) (cards (deck app));
               defaults := defaults (deck app) |}
            "Card archived"
            {| deck := deck app;
               session := fst (archiveCurrentCard (deck app) (session app));
               stored := stored app; live := live app |}).
Proof.
  intros Hd Hc. unfold step, deck_replaced, archive_render.
  by rewrite (archiveCurrentCard_active _ _ index).
Qed.

(** "Got it" at the end of the session changes nothing. *)
Lemma step_archive_done rand app :
  done (session app) = true → step app (ArchiveCurrent rand) = app.
Proof.
  intros Hd. unfold step, deck_replaced, archive_render.
  rewrite archiveCurrentCard_done by done. by destruct app.
Qed.

Lemma initSession_unshuffled rand d :
  default_shuffle (defaults d) = false →
  initSession rand d
  = {| order := getActiveIndices (cards d); cursor := 0; flipped := false;
       direction := default_direction (defaults d) |}.
Proof. intros Hs. unfold initSession. by rewrite Hs. Qed.

(** One "Got it" on an unshuffled deck, in terms of the active indices. *)
Lemma step_archive_unshuffled rand app index active :
  default_shuffle (defaults (deck app)) = false →
  getActiveIndices (cards (deck app)) = active →
  done (session app) = false → currentIndex (session app) = CardIndex index →
  let after := step app (ArchiveCurrent rand) in
  session after
  = {| order := filter (λ i, ¬ is_current (CardIndex index) i) active;
       cursor := 0; flipped := false;
       direction := default_direction (defaults (deck app)) |}
  ∧ getActiveIndices (cards (deck after))
    = filter (λ i, ¬ is_current (CardIndex index) i) active
  ∧ defaults (deck after) = defaults (deck app).
Proof.
  intros Hs Hact Hd Hc after. subst after.
  rewrite (step_archive_active _ _ index) by done.
  unfold deck_effect, save. cbn [session deck cards defaults].
  rewrite initSession_unshuffled by done. cbn [cards defaults].
  by rewrite getActiveIndices_archive, Hact.
Qed.

Lemma progressPercent_eq app active s :
  getActiveIndices (cards (deck app)) = active → session app = s →
  progressPercent app
  = percent (Z.of_nat (length active)
             - (if done s then 0 else Z.of_nat (length (order s)) - cursor s))
            (Z.of_nat (length active)).
Proof.
  intros Hact Hs. unfold progressPercent, learned, totalActive, remaining.
  by rewrite Hact, Hs.
Qed.

(** C1, as the code has it.  For a deck whose active cards are the cards
    0, 1 and 2, with [shuffle = false] and [direction = Q2A]: the session
    starts with [order = [0,1,2]], [cursor = 0], [remaining = 3],
    [progressPercent = 0].  "Got it" saves the deck, which starts the
    session again over the two cards still active: [order = [1,2]],
    [cursor = 0], [remaining = 2], [totalActive = 2], [progressPercent =
    0].  After advance and "Got it", [order = [1]] with [cursor = 0]; the
    next advance reaches the end, where "Got it" does nothing: [order =
    [1]], the session is done and [progressPercent = 100]. *)
Theorem scenario_three_active_cards rand0 rand1 rand2 rand3 d st lv :
  getActiveIndices (cards d) = [0; 1; 2] →
  default_shuffle (defaults d) = false →
  default_direction (defaults d) = Q2A →
  let app0 := mount rand0 d st lv in
  let app1 := step app0 (ArchiveCurrent rand1) in
  let app2 := run app1 [Advance; ArchiveCurrent rand2] in
  let app3 := run app2 [Advance; ArchiveCurrent rand3] in
  (order (session app0) = [0; 1; 2] ∧ cursor (session app0) = 0
   ∧ direction (session app0) = Q2A
   ∧ remaining app0 = 3 ∧ progressPercent app0 = Some 0)
  ∧ (order (session app1) = [1; 2] ∧ cursor (session app1) = 0
     ∧ remaining app1 = 2 ∧ totalActive app1 = 2
     ∧ progressPercent app1 = Some 0)
  ∧ (order (session app2) = [1] ∧ cursor (session app2) = 0)
  ∧ (order (session app3) = [1] ∧ done (session app3) = true
     ∧ remaining app3 = 0 ∧ progressPercent app3 = Some 100).
Proof.
  intros Hact Hs Hdir app0 app1 app2 app3.
  assert (session app0 = mkSession [0; 1; 2] 0 false Q2A) as H0.
  { unfold app0, mount. cbn [session].
    by rewrite initSession_unshuffled, Hact, Hdir. }
  assert (getActiveIndices (cards (deck app0)) = [0; 1; 2]) as A0 by done.
  destruct (step_archive_unshuffled rand1 app0 0 [0; 1; 2])
    as (H1 & A1 & D1); [done | done | by rewrite H0 | by rewrite H0 |].
  fold app1 in H1, A1, D1.
  change (defaults (deck app0)) with (defaults d) in H1, D1.
  rewrite Hdir in H1.
  change (filter _ [0; 1; 2]) with [1; 2] in H1, A1.
  pose (appA := step app1 Advance).
  assert (session appA = mkSession [1; 2] 1 false Q2A) as HA.
  { unfold appA. simpl. by rewrite H1. }
  destruct (step_archive_unshuffled rand2 appA 2 [1; 2])
    as (H2 & A2 & D2);
    [simpl; by rewrite D1 | done | by rewrite HA | by rewrite HA |].
  change (step appA (ArchiveCurrent rand2)) with app2 in H2, A2, D2.
  change (defaults (deck appA)) with (defaults (deck app1)) in H2, D2.
  rewrite D1, Hdir in H2.
  change (filter _ [1; 2]) with [1] in H2, A2.
  pose (appB := step app2 Advance).
  assert (session appB = mkSession [1] 1 false Q2A) as HB.
  { unfold appB. simpl. by rewrite H2. }
  assert (app3 = appB) as H3.
  { unfold app3. apply step_archive_done. by rewrite HB. }
  assert (getActiveIndices (cards (deck appB)) = [1]) as AB by done.
  repeat match goal with |- _ ∧ _ => split end.
  - by rewrite H0.
  - by rewrite H0.
  - by rewrite H0.
  - unfold remaining. by rewrite H0.
  - by rewrite (progressPercent_eq app0 _ _ A0 H0).
  - by rewrite H1.
  - by rewrite H1.
  - unfold remaining. by rewrite H1.
  - unfold totalActive. by rewrite A1.
  - by rewrite (progressPercent_eq app1 _ _ A1 H1).
  - by rewrite H2.
  - by rewrite H2.
  - by rewrite H3, HB.
  - by rewrite H3, HB.
  - unfold remaining. by rewrite H3, HB.
  - rewrite H3. by rewrite (progressPercent_eq appB _ _ AB HB).
Qed.

Lemma scenario_three_active_cards_witness :
  getActiveIndices (cards three_cards) = [0; 1; 2]
  ∧ default_shuffle (defaults three_cards) = false
  ∧ default_direction (defaults three_cards) = Q2A
  ∧ let app0 := mount zero_random three_cards None None in
    let app1 := step app0 (ArchiveCurrent zero_random) in
    let app2 := run app1 [Advance; ArchiveCurrent zero_random] in
    let app3 := run app2 [Advance; ArchiveCurrent zero_random] in
    (order (session app0) = [0; 1; 2] ∧ cursor (session app0) = 0
     ∧ direction (session app0) = Q2A
     ∧ remaining app0 = 3 ∧ progressPercent app0 = Some 0)
    ∧ (order (session app1) = [1; 2] ∧ cursor (session app1) = 0
       ∧ remaining app1 = 2 ∧ totalActive app1 = 2
       ∧ progressPercent app1 = Some 0)
    ∧ (order (session app2) = [1] ∧ cursor (session app2) = 0)
    ∧ (order (session app3) = [1] ∧ done (session app3) = true
       ∧ remaining app3 = 0 ∧ progressPercent app3 = Some 100).
Proof.
  split; [reflexivity|]. split; [reflexivity|]. split; [reflexivity|].
  apply (scenario_three_active_cards zero_random zero_random zero_random
           zero_random three_cards None None); reflexivity.
Defined.

(** C1 as the specification states it fails on the deck [three_cards].
    In the application, the progress after the first "Got it" is [0], not
    [33], and the order at the end is [[1]], not empty.  With the handlers
    of [StudyView] alone, the deck prop held fixed, the order at the end
    is [[1]] as well: the second advance reaches the end of the session,
    where "Got it" does nothing. *)
Lemma scenario_three_cards_as_stated_fails :
  let app0 := mount zero_random three_cards None None in
  let app1 := step app0 (ArchiveCurrent zero_random) in
  let app3 := run app1 [Advance; ArchiveCurrent zero_random;
                        Advance; ArchiveCurrent zero_random] in
  let h1 := fst (archiveCurrentCard three_cards (session app0)) in
  let h2 := fst (archiveCurrentCard three_cards (goToNext h1)) in
  let h3 := fst (archiveCurrentCard three_cards (goToNext h2)) in
  progressPercent app1 ≠ Some 33
  ∧ order (session app3) ≠ []
  ∧ order h3 ≠ [].
Proof. vm_compute. repeat split; discriminate. Qed.

Lemma cursor_invariant_witness :
  let app := mount zero_random three_cards None None in
  cursor_in_range (session app)
  ∧ cursor_in_range (session (mount zero_random three_cards None None))
  ∧ cursor_in_range (session (step app (ArchiveCurrent zero_random)))
  ∧ cursor_in_range (session (archive_render app))
  ∧ (done (session app) = true
     ↔ cursor (session app) = Z.of_nat (length (order (session app)))).
Proof.
  assert (cursor_in_range (session (mount zero_random three_cards None None)))
    as H by (unfold cursor_in_range; simpl; lia).
  split; [exact H|].
  exact (cursor_invariant zero_random three_cards None None _
           (ArchiveCurrent zero_random) H).
Defined.

Lemma archiveCurrent_active_witness :
  let app := mount zero_random three_cards None None in
  consistent app ∧ done (session app) = false
  ∧ (length (order (fst (archiveCurrentCard (deck app) (session app)))) + 1
     = length (order (session app)))%nat
  ∧ (length (order (session (step app (ArchiveCurrent zero_random)))) + 1
     = length (order (session app)))%nat.
Proof.
  assert (consistent (mount zero_random three_cards None None)) as H
    by (split; [reflexivity | unfold cursor_in_range; simpl; lia]).
  split; [exact H|]. split; [reflexivity|].
  pose proof (archiveCurrent_active zero_random _ H eq_refl) as Hthm.
  split; [exact (proj1 (proj2 Hthm))|].
  exact (proj1 (proj2 (proj2 (proj2 (proj2 (proj2 Hthm)))))).
Defined.

End StudySession.

(** ** Import, export and the persisted deck *)

Section Documents.
Variable Number_toString : spec_float → string.
Implicit Types (json : value) (w : Working) (d : Deck).

Lemma is_one_1 : is_one (VNumber (JSNumber.of_Z 1)) = true.
Proof. reflexivity. Qed.

(** An import goes through only for a document with the schema. *)
Lemma import_json_valid_schema json imported :
  import_json Number_toString json = Some imported → valid_schema json = true.
Proof.
  unfold import_json, valid_schema. intros H.
  destruct (get json "schemaVersion") as [version|]; [simpl in H|done].
  destruct (is_one version); [simpl in H|done].
  destruct (get json "cards") as [[]|]; simpl in H; done.
Qed.

(** A thrown exception leaves the working copy as it was. *)
Lemma onchange_cases w parsed :
  (∃ json imported,
      parsed = Some json
      ∧ import_json Number_toString json = Some imported
      ∧ onchange Number_toString w (Some parsed) = (imported, Some "Set imported"))
  ∨ ((parsed ≫= import_json Number_toString) = None
     ∧ onchange Number_toString w (Some parsed) = (w, Some "Import failed")).
Proof.
  unfold onchange.
  destruct parsed as [json|]; simpl; [|by right].
  destruct (import_json Number_toString json) as [imported|] eqn:Himp;
    [left; eauto | by right].
Qed.

(** C8.  An import of a document that is malformed JSON, or whose
    [schemaVersion] is not [1], or whose [cards] is not a sequence, leaves
    the working copy (name, cards, direction, shuffle) as it was and
    announces "Import failed". *)
Theorem import_invalid_aborts w parsed :
  invalid_document parsed →
  importJSON Number_toString true (Some parsed) w = (w, Some "Import failed").
Proof.
  intros Hinv. unfold importJSON.
  destruct (onchange_cases w parsed) as [(json & imported & -> & Himp & _)|[_ H]];
    [|done].
  apply import_json_valid_schema in Himp. simpl in Hinv. congruence.
Qed.

(** C9.  After a successful import the name is never the empty string:
    a name that is missing or empty in the document is replaced by
    ["Imported Set"]. *)
Theorem import_name_never_empty w json imported :
  importJSON Number_toString true (Some (Some json)) w
  = (imported, Some "Set imported") →
  w_name imported ≠ VString ""
  ∧ ToBoolean (w_name imported) = true
  ∧ (get json "name" = Some VUndefined ∨ get json "name" = Some (VString "")
     → w_name imported = VString "Imported Set").
Proof.
  unfold importJSON. intros H.
  destruct (onchange_cases w (Some json))
    as [(json' & imported' & [= <-] & Himp & Hon)|[_ Hon]];
    rewrite Hon in H; simplify_eq.
  unfold import_json in Himp.
  destruct (get json "schemaVersion") as [version|]; [simpl in Himp|done].
  destruct (is_one version); [simpl in Himp|done].
  destruct (get json "cards") as [[| | | | |elements|]|]; simpl in Himp; try done.
  destruct (mapM _ elements) as [importedCards|]; [simpl in Himp|done].
  destruct (get json "name") as [json_name|]; [simpl in Himp|done].
  destruct (get json "defaults") as [json_defaults|]; [simpl in Himp|done].
  simplify_eq. simpl. unfold or_else.
  destruct (ToBoolean json_name) eqn:Hname.
  - split; [by intros ->|]. split; [done|].
    intros [[= ->]|[= ->]]; done.
  - done.
Qed.

(** *** Export, then import *)

Lemma import_card_to_json (card : CardItem) :
  import_card Number_toString (card_to_json card) = Some (coerce_card card).
Proof. destruct card as [q_ a_ [[]|]]; reflexivity. Qed.

Lemma import_cards_to_json (cs : list CardItem) :
  mapM (import_card Number_toString) (card_to_json <$> cs)
  = Some (coerce_card <$> cs).
Proof.
  induction cs as [|card cs IH]; [done|].
  rewrite !fmap_cons. cbn [mapM]. rewrite import_card_to_json, IH. done.
Qed.

Lemma import_json_deck_to_json d :
  import_json Number_toString (deck_to_json d)
  = Some (working_of_deck (coerce_deck d)).
Proof.
  unfold import_json, deck_to_json.
  cbn [get own_property String.eqb Ascii.eqb Bool.eqb default mbind option_bind].
  unfold id. rewrite is_one_1. cbn [negb].
  rewrite import_cards_to_json. cbn [mbind option_bind].
  unfold working_of_deck, coerce_deck, or_else.
  cbn [name cards defaults ToBoolean].
  f_equal. f_equal.
  - by destruct (String.eqb (name d) "").
  - by destruct (default_direction (defaults d)).
Qed.

(** C3, as the code has it.  Exporting a deck and importing the document
    gives the deck back with every absent [archived] field set to [false]
    and with an empty name replaced by ["Imported Set"]; this holds for
    the document [App] exports from its deck and for the one [EditView]
    makes from a working copy holding the deck.  A deck with a name that
    is not empty comes back equal up to the [archived] fields. *)
Theorem export_import_roundtrip d w w0 :
  importJSON Number_toString true (Some (Some (exportJSON (Some d) w))) w0
  = (working_of_deck (coerce_deck d), Some "Set imported")
  ∧ importJSON Number_toString true
      (Some (Some (exportJSON None (working_of_deck d)))) w0
    = (working_of_deck (coerce_deck d), Some "Set imported")
  ∧ cards (coerce_deck d) = coerce_card <$> cards d
  ∧ defaults (coerce_deck d) = defaults d
  ∧ name (coerce_deck d)
    = (if String.eqb (name d) "" then "Imported Set" else name d).
Proof.
  assert (exportJSON None (working_of_deck d) = deck_to_json d) as -> by done.
  unfold importJSON, onchange, exportJSON. simpl.
  by rewrite import_json_deck_to_json.
Qed.

(** *** The persisted deck *)


(** C2, on the path of the persisted deck.  The stored document
    [{"schemaVersion":1}] has no [cards] and so does not have the schema;
    [importJSON] refuses it, but [loadDeck] returns it, and [App] adopts
    it as its deck. *)
Theorem loadDeck_adopts_deck_without_cards w :
  valid_schema version_only = false
  ∧ get version_only "cards" = Some VUndefined
  ∧ importJSON Number_toString true (Some (Some version_only)) w
    = (w, Some "Import failed")
  ∧ loadDeck (Text (Some version_only)) = Some version_only
  ∧ initial_deck (Text (Some version_only)) = version_only.
Proof. repeat split. Qed.

End Documents.

Lemma import_invalid_aborts_witness :
  invalid_document (Some version_two)
  ∧ importJSON sample_toString true (Some (Some version_two))
      (working_of_deck three_cards)
    = (working_of_deck three_cards, Some "Import failed").
Proof.
  split; [reflexivity|].
  apply (import_invalid_aborts sample_toString). reflexivity.
Defined.

Lemma import_name_never_empty_witness :
  importJSON sample_toString true (Some (Some (deck_to_json unnamed_deck)))
    (working_of_deck three_cards)
  = (working_of_deck (coerce_deck unnamed_deck), Some "Set imported")
  ∧ w_name (working_of_deck (coerce_deck unnamed_deck)) ≠ VString ""
  ∧ ToBoolean (w_name (working_of_deck (coerce_deck unnamed_deck))) = true
  ∧ (get (deck_to_json unnamed_deck) "name" = Some VUndefined
     ∨ get (deck_to_json unnamed_deck) "name" = Some (VString "")
     → w_name (working_of_deck (coerce_deck unnamed_deck)) = VString "Imported Set").
Proof.
  split; [reflexivity|].
  apply (import_name_never_empty sample_toString (working_of_deck three_cards)
           (deck_to_json unnamed_deck)).
  reflexivity.
Defined.

(** C3 as the specification states it fails on [unnamed_deck]: the deck
    that comes back is not the original with its absent [archived] fields
    set to [false], because its name is ["Imported Set"] where the original
    has the empty name. *)
Lemma roundtrip_unnamed_deck_fails :
  let imported :=
    fst (importJSON sample_toString true
           (Some (Some (exportJSON (Some unnamed_deck) (working_of_deck unnamed_deck))))
           (working_of_deck defaultDeck)) in
  imported
  ≠ working_of_deck {| name := name unnamed_deck;
                       cards := coerce_card <$> cards unnamed_deck;
                       defaults := defaults unnamed_deck |}
  ∧ w_name imported = VString "Imported Set".
Proof. vm_compute. split; [discriminate | reflexivity]. Qed.

(** ** Binary64 rounding

    [binary_round_aux], which every operation of [SpecFloat] ends with,
    returns a neighbour of the exact result on the grid of its exponent
    ([binary_round_aux_spec]).  The quotient and the product of
    [progressPercent] are instances ([div_spec], [percent_nearest]). *)

Section Binary64.

(** The number of binary digits of a positive number. *)
Lemma digits2_pos_bounds p :
  2 ^ (Z.pos (digits2_pos p) - 1) ≤ Z.pos p < 2 ^ Z.pos (digits2_pos p).
Proof.
  induction p as [p IH|p IH|]; cbn [digits2_pos].
  3:{ split; reflexivity. }
  all: rewrite Pos2Z.inj_succ.
  all: rewrite (Z.pow_succ_r 2 (Z.pos (digits2_pos p))) by lia.
  all: replace (Z.succ (Z.pos (digits2_pos p)) - 1)
         with (Z.succ (Z.pos (digits2_pos p) - 1)) by lia.
  all: rewrite Z.pow_succ_r by lia.
  all: lia.
Qed.

Lemma Zdigits2_le m j : 0 ≤ j → 0 ≤ m < 2 ^ j → Zdigits2 m ≤ j.
Proof.
  intros Hj [Hm Hlt]. destruct m as [|p|p]; [simpl; lia| |lia].
  cbn [Zdigits2].
  destruct (Z.le_gt_cases (Z.pos (digits2_pos p)) j) as [Hle|Hgt]; [exact Hle|].
  pose proof (digits2_pos_bounds p) as [Hlo _].
  assert (2 ^ j ≤ 2 ^ (Z.pos (digits2_pos p) - 1))
    by (apply Z.pow_le_mono_r; lia).
  lia.
Qed.

Lemma Zdigits2_eq m j : 0 < j → 2 ^ (j - 1) ≤ m < 2 ^ j → Zdigits2 m = j.
Proof.
  intros Hj [Hlo Hhi].
  assert (0 < 2 ^ (j - 1)) by (apply Z.pow_pos_nonneg; lia).
  pose proof (Zdigits2_le m j) as Hle.
  destruct m as [|p|p]; try lia. cbn [Zdigits2] in *.
  pose proof (digits2_pos_bounds p) as [_ Hp].
  destruct (Z.le_gt_cases j (Z.pos (digits2_pos p))) as [|Hgt]; [lia|].
  assert (2 ^ Z.pos (digits2_pos p) ≤ 2 ^ (j - 1))
    by (apply Z.pow_le_mono_r; lia).
  lia.
Qed.

Lemma stands_for_intro m (r s : bool) num den :
  0 ≤ m →
  (2 * m + (if r then 1 else 0)) * den ≤ 2 * num
    < (2 * m + (if r then 1 else 0) + 1) * den →
  (s = false ↔ (2 * m + (if r then 1 else 0)) * den = 2 * num) →
  stands_for (Build_shr_record m r s) num den.
Proof. intros. unfold stands_for. cbn [shr_m shr_r shr_s]. auto. Qed.

(** One shift to the right halves the unit. *)
Lemma shr_1_stands mrs num den :
  0 < den → stands_for mrs num den → stands_for (shr_1 mrs) num (2 * den).
Proof.
  intros Hden. destruct mrs as [m r s]. unfold stands_for at 1.
  cbn [shr_m shr_r shr_s]. intros (Hm & Hk & Hs).
  assert (s = true → (2 * m + (if r then 1 else 0)) * den ≠ 2 * num) as Hs'.
  { intros -> Heq. apply Hs in Heq. discriminate. }
  assert (s = false → (2 * m + (if r then 1 else 0)) * den = 2 * num) as Hs''
    by apply Hs.
  clear Hs.
  destruct m as [|[p|p|]|p]; try lia; cbn [shr_1];
    apply stands_for_intro;
    try rewrite (Pos2Z.inj_xI p) in *; try rewrite (Pos2Z.inj_xO p) in *;
    destruct r, s; cbn [orb] in *;
    try specialize (Hs' eq_refl); try specialize (Hs'' eq_refl);
    try lia; split; intros; try discriminate; try lia.
Qed.

Lemma iter_pos_stands num p : ∀ mrs den,
  0 < den → stands_for mrs num den →
  stands_for (SpecFloat.iter_pos shr_1 p mrs) num (2 ^ Z.pos p * den).
Proof.
  induction p as [p IH|p IH|]; intros mrs den Hden H; cbn [SpecFloat.iter_pos].
  - rewrite (Pos2Z.inj_xI p).
    replace (2 ^ (2 * Z.pos p + 1) * den)
      with (2 ^ Z.pos p * (2 ^ Z.pos p * (2 * den))).
    2:{ rewrite Z.pow_add_r, Z.pow_1_r by lia.
        replace (2 * Z.pos p) with (Z.pos p + Z.pos p) by lia.
        rewrite Z.pow_add_r by lia. ring. }
    assert (0 < 2 ^ Z.pos p) by (apply Z.pow_pos_nonneg; lia).
    apply IH; [nia|]. apply IH; [lia|]. by apply shr_1_stands.
  - rewrite (Pos2Z.inj_xO p).
    replace (2 ^ (2 * Z.pos p) * den)
      with (2 ^ Z.pos p * (2 ^ Z.pos p * den)).
    2:{ replace (2 * Z.pos p) with (Z.pos p + Z.pos p) by lia.
        rewrite Z.pow_add_r by lia. ring. }
    assert (0 < 2 ^ Z.pos p) by (apply Z.pow_pos_nonneg; lia).
    apply IH; [nia|]. by apply IH.
  - rewrite Z.pow_1_r. by apply shr_1_stands.
Qed.

Lemma shr_stands mrs e n num den :
  0 < den → stands_for mrs num den →
  stands_for (fst (shr mrs e n)) num (2 ^ Z.max 0 n * den)
  ∧ snd (shr mrs e n) = e + Z.max 0 n.
Proof.
  intros Hden H. destruct n as [|p|p]; cbn [shr fst snd].
  - rewrite Z.max_l by lia. rewrite Z.pow_0_r, Z.mul_1_l. split; [exact H|lia].
  - rewrite Z.max_r by lia. split; [by apply iter_pos_stands|lia].
  - rewrite Z.max_l by lia. rewrite Z.pow_0_r, Z.mul_1_l. split; [exact H|lia].
Qed.

(** Rounding to nearest gives a neighbour of the number. *)
Lemma round_nearest_even_bounds mrs num den :
  0 < den → stands_for mrs num den →
  let m := round_nearest_even (shr_m mrs) (loc_of_shr_record mrs) in
  0 ≤ m ∧ (m - 1) * den < num < (m + 1) * den.
Proof.
  intros Hden. destruct mrs as [m r s]. unfold stands_for.
  cbn [shr_m shr_r shr_s loc_of_shr_record]. intros (Hm & Hk & Hs).
  assert (s = true → (2 * m + (if r then 1 else 0)) * den ≠ 2 * num) as Hs'.
  { intros -> Heq. apply Hs in Heq. discriminate. }
  destruct r, s; cbn [round_nearest_even]; try destruct (Z.even m);
    try specialize (Hs' eq_refl); lia.
Qed.

Lemma exact_stands m : 0 ≤ m → stands_for (shr_record_of_loc m loc_Exact) m 1.
Proof.
  intros. apply stands_for_intro; [lia|lia|]. split; intros; [lia|reflexivity].
Qed.

Lemma shr_record_of_loc_m m l : shr_m (shr_record_of_loc m l) = m.
Proof. by destruct l as [|[]]. Qed.

Lemma fexp_eq e : SpecFloat.fexp 53 1024 e = Z.max (e - 53) (-1074).
Proof. reflexivity. Qed.

(** The result of [binary_round_aux] on a number [num/den * 2^ex] below
    [2^j * 2^ex]: a double [m * 2^e] less than one unit [2^e] away, with
    [e] bounded through [j]. *)
Lemma binary_round_aux_spec mx ex lx num den j :
  0 < den → stands_for (shr_record_of_loc mx lx) num den →
  0 ≤ j → num < 2 ^ j * den →
  -1074 ≤ ex → ex ≤ 900 → j + ex ≤ 900 →
  ∃ m e,
    binary_round_aux 53 1024 false mx ex lx = SFresult m e
    ∧ 0 ≤ m ∧ ex ≤ e ≤ Z.max ex (j + ex - 52)
    ∧ (m - 1) * (2 ^ (e - ex) * den) < num < (m + 1) * (2 ^ (e - ex) * den).
Proof.
  intros Hden Hst Hj Hnum Hex1 Hex2 Hjex.
  assert (0 ≤ mx < 2 ^ j) as Hmx.
  { destruct Hst as (Hm & Hk & _). rewrite shr_record_of_loc_m in Hm, Hk.
    split; [exact Hm|].
    apply (Z.mul_lt_mono_pos_r den); [exact Hden|].
    destruct (shr_r (shr_record_of_loc mx lx)); lia. }
  pose proof (Zdigits2_le mx j Hj Hmx) as Hdmx.
  assert (0 ≤ Zdigits2 mx) as Hdmx0 by (destruct mx; simpl; lia).
  unfold binary_round_aux, shr_fexp. rewrite fexp_eq.
  set (n := Z.max (Zdigits2 mx + ex - 53) (-1074) - ex).
  pose proof (shr_stands (shr_record_of_loc mx lx) ex n num den Hden Hst)
    as [Hst1 He1].
  destruct (shr (shr_record_of_loc mx lx) ex n) as [mrs1 e1].
  cbn [fst snd] in Hst1, He1. rewrite fexp_eq.
  set (A := Z.max 0 n) in *.
  assert (0 < 2 ^ A) as HP by (apply Z.pow_pos_nonneg; lia).
  assert (0 < 2 ^ A * den) as HD by lia.
  pose proof (round_nearest_even_bounds mrs1 num _ HD Hst1) as Hrne.
  cbv zeta in Hrne.
  set (m2 := round_nearest_even (shr_m mrs1) (loc_of_shr_record mrs1)) in *.
  destruct Hrne as (Hm2 & Hlo2 & Hhi2).
  set (n2 := Z.max (Zdigits2 m2 + e1 - 53) (-1074) - e1).
  pose proof (shr_stands (shr_record_of_loc m2 loc_Exact) e1 n2 m2 1
                ltac:(lia) (exact_stands m2 Hm2)) as [Hst2 He2].
  destruct (shr (shr_record_of_loc m2 loc_Exact) e1 n2) as [mrs2 e2].
  cbn [fst snd] in Hst2, He2.
  set (B := Z.max 0 n2) in *.
  assert (0 < 2 ^ B) as HQ by (apply Z.pow_pos_nonneg; lia).
  destruct Hst2 as (Hm3 & Hk3 & _).
  set (m3 := shr_m mrs2) in *.
  assert (m3 * 2 ^ B ≤ m2 < (m3 + 1) * 2 ^ B) as Hm3b
    by (destruct (shr_r mrs2); lia).
  (* the digits of the rounded mantissa *)
  assert (Zdigits2 m2 + A ≤ Z.max (j + 1) (A + 1)) as Hdm2.
  { assert ((m2 - 1) * 2 ^ A < 2 ^ j) as Hlt.
    { apply (Z.mul_lt_mono_pos_r den); [exact Hden|]. lia. }
    destruct (Z.le_gt_cases A j) as [HAj|HAj].
    - assert (2 ^ j = 2 ^ (j - A) * 2 ^ A) as Hpow
        by (rewrite <-Z.pow_add_r by lia; f_equal; lia).
      assert (0 < 2 ^ (j - A)) by (apply Z.pow_pos_nonneg; lia).
      assert (m2 - 1 < 2 ^ (j - A)).
      { apply (Z.mul_lt_mono_pos_r (2 ^ A)); [exact HP|]. lia. }
      assert (Zdigits2 m2 ≤ j - A + 1); [|lia].
      apply Zdigits2_le; [lia|]. rewrite Z.pow_add_r, Z.pow_1_r by lia. lia.
    - assert (2 ^ j < 2 ^ A) by (apply Z.pow_lt_mono_r; lia).
      assert (m2 - 1 < 1).
      { apply (Z.mul_lt_mono_pos_r (2 ^ A)); [exact HP|]. lia. }
      assert (Zdigits2 m2 ≤ 1); [|lia].
      apply Zdigits2_le; [lia|]. rewrite Z.pow_1_r. lia. }
  assert (0 ≤ Zdigits2 m2) as Hdm20 by (destruct m2; simpl; lia).
  assert (e2 = ex + (A + B) ∧ e2 ≤ Z.max ex (j + ex - 52)) as [He2' Hebound].
  { subst A B n n2. lia. }
  exists m3, e2.
  assert (2 ^ (e2 - ex) = 2 ^ A * 2 ^ B) as ->.
  { rewrite <-Z.pow_add_r by lia. f_equal. lia. }
  split.
  { unfold SFresult. destruct m3 as [|p|p]; [reflexivity| |lia].
    rewrite (proj2 (Z.leb_le e2 (1024 - 53))) by lia. reflexivity. }
  split; [exact Hm3|]. split; [lia|].
  split.
  - apply Z.le_lt_trans with ((m2 - 1) * (2 ^ A * den)); [|exact Hlo2].
    replace ((m3 - 1) * (2 ^ A * 2 ^ B * den))
      with (((m3 - 1) * 2 ^ B) * (2 ^ A * den)) by ring.
    apply Z.mul_le_mono_nonneg_r; lia.
  - apply Z.lt_le_trans with ((m2 + 1) * (2 ^ A * den)); [exact Hhi2|].
    replace ((m3 + 1) * (2 ^ A * 2 ^ B * den))
      with (((m3 + 1) * 2 ^ B) * (2 ^ A * den)) by ring.
    apply Z.mul_le_mono_nonneg_r; lia.
Qed.

(** A full mantissa with nothing to round is returned as it is. *)
Lemma binary_round_aux_exact m e :
  Zdigits2 (Z.pos m) = 53 → -1074 ≤ e ≤ 971 →
  binary_round_aux 53 1024 false (Z.pos m) e loc_Exact = S754_finite false m e.
Proof.
  intros Hd He. unfold binary_round_aux, shr_fexp.
  rewrite fexp_eq, Hd.
  replace (Z.max (53 + e - 53) (-1074) - e) with 0 by lia.
  cbn [shr shr_record_of_loc round_nearest_even loc_of_shr_record shr_m].
  rewrite fexp_eq, Hd.
  replace (Z.max (53 + e - 53) (-1074) - e) with 0 by lia.
  cbn [shr shr_record_of_loc shr_m].
  rewrite (proj2 (Z.leb_le e (1024 - 53))) by lia. reflexivity.
Qed.

Lemma iter_xO p c : Z.pos (Pos.iter xO p c) = Z.pos p * 2 ^ Z.pos c.
Proof.
  induction c as [|c IH] using Pos.peano_ind.
  - cbn [Pos.iter]. rewrite Z.pow_1_r. lia.
  - rewrite Pos.iter_succ, Pos2Z.inj_succ, Z.pow_succ_r by lia.
    rewrite (Pos2Z.inj_xO (Pos.iter xO p c)), IH. ring.
Qed.

(** An integer below [2^53] is a double. *)
Lemma of_Z_exact z :
  0 < z < 2 ^ 53 →
  ∃ m e, JSNumber.of_Z z = S754_finite false m e
         ∧ -52 ≤ e ≤ 0
         ∧ Z.pos m = z * 2 ^ (- e)
         ∧ Zdigits2 (Z.pos m) = 53.
Proof.
  intros [Hz0 Hz]. destruct z as [|p|p]; try lia.
  unfold JSNumber.of_Z, binary_normalize, binary_round.
  rewrite fexp_eq.
  pose proof (digits2_pos_bounds p) as Hp.
  assert (Z.pos (digits2_pos p) ≤ 53) as Hd
    by (apply (Zdigits2_le (Z.pos p) 53); lia).
  set (d := Z.pos (digits2_pos p)) in *.
  replace (Z.max (d + 0 - 53) (-1074)) with (d - 53) by lia.
  unfold shl_align.
  destruct (d - 53 - 0) as [|c|c] eqn:Hc; try lia.
  - assert (d = 53) as Hd53 by lia.
    exists p, 0. rewrite binary_round_aux_exact; [|exact Hd53|lia].
    split; [reflexivity|]. split; [lia|]. split; [|exact Hd53].
    rewrite Z.pow_0_r. lia.
  - assert (Z.pos c = 53 - d) as Hc' by lia.
    assert (2 ^ 52 ≤ Z.pos (Pos.iter xO p c) < 2 ^ 53) as Hm.
    { rewrite iter_xO, Hc'.
      assert (2 ^ 52 = 2 ^ (d - 1) * 2 ^ (53 - d)) as ->
        by (rewrite <-Z.pow_add_r by lia; f_equal; lia).
      assert (2 ^ 53 = 2 ^ d * 2 ^ (53 - d)) as ->
        by (rewrite <-Z.pow_add_r by lia; f_equal; lia).
      assert (0 < 2 ^ (53 - d)) by (apply Z.pow_pos_nonneg; lia).
      split; [apply Z.mul_le_mono_nonneg_r | apply Z.mul_lt_mono_pos_r]; lia. }
    assert (Zdigits2 (Z.pos (Pos.iter xO p c)) = 53) as Hd53
      by (apply Zdigits2_eq; [lia|exact Hm]).
    exists (Pos.iter xO p c), (d - 53).
    rewrite binary_round_aux_exact; [|exact Hd53|lia].
    split; [reflexivity|]. split; [lia|]. split; [|exact Hd53].
    rewrite iter_xO, Hc'. f_equal. f_equal. lia.
Qed.

(** The location [SFdiv] computes from the remainder of its division. *)
Lemma new_location_stands d q r :
  0 < d → 0 ≤ q → 0 ≤ r < d →
  stands_for (shr_record_of_loc q (new_location d r)) (q * d + r) d.
Proof.
  intros Hd Hq Hr. unfold new_location, new_location_even, new_location_odd.
  destruct (Z.even d) eqn:Hev.
  - destruct (Z.eqb_spec r 0) as [->|Hr0].
    + apply stands_for_intro; [lia|lia|]. split; intros; [lia|reflexivity].
    + destruct (Z.compare_spec (2 * r) d);
        apply stands_for_intro; try lia; split; intros; try discriminate; lia.
  - assert (∃ k, d = 2 * k + 1) as [k Hk].
    { apply Z.odd_spec. rewrite <-Z.negb_even, Hev. reflexivity. }
    destruct (Z.eqb_spec r 0) as [->|Hr0].
    + apply stands_for_intro; [lia|lia|]. split; intros; [lia|reflexivity].
    + destruct (Z.compare_spec (2 * r + 1) d);
        apply stands_for_intro; try lia; split; intros; try discriminate; lia.
Qed.

Lemma digits_53 m : Zdigits2 (Z.pos m) = 53 → 2 ^ 52 ≤ Z.pos m < 2 ^ 53.
Proof.
  cbn [Zdigits2]. intros Hd. pose proof (digits2_pos_bounds m) as H.
  rewrite Hd in H. exact H.
Qed.

(** The quotient of two doubles with full mantissas. *)
Lemma div_spec ml el mt et :
  Zdigits2 (Z.pos ml) = 53 → Zdigits2 (Z.pos mt) = 53 →
  -52 ≤ el ≤ 0 → -52 ≤ et ≤ 0 →
  ∃ m e,
    JSNumber.div (S754_finite false ml el) (S754_finite false mt et)
    = SFresult m e
    ∧ 0 ≤ m ∧ el - et - 53 ≤ e ≤ el - et - 51
    ∧ (m - 1) * (2 ^ (e - (el - et - 53)) * Z.pos mt) < Z.pos ml * 2 ^ 53
      < (m + 1) * (2 ^ (e - (el - et - 53)) * Z.pos mt).
Proof.
  intros Hdl Hdt Hel Het.
  pose proof (digits_53 ml Hdl) as Hml. pose proof (digits_53 mt Hdt) as Hmt.
  unfold JSNumber.div, SFdiv, SFdiv_core_binary.
  rewrite Hdl, Hdt, fexp_eq.
  replace (Z.min (Z.max (53 + el - (53 + et) - 53) (-1074)) (el - et))
    with (el - et - 53) by lia.
  replace (el - et - (el - et - 53)) with 53 by lia.
  rewrite Z.shiftl_mul_pow2 by lia.
  pose proof (Z_div_mod (Z.pos ml * 2 ^ 53) (Z.pos mt) ltac:(lia)) as Hdiv.
  destruct (Z.div_eucl (Z.pos ml * 2 ^ 53) (Z.pos mt)) as [q r].
  destruct Hdiv as [Hqr Hr].
  assert (0 ≤ q) as Hq.
  { assert (0 ≤ Z.pos ml * 2 ^ 53) by lia. nia. }
  pose proof (new_location_stands (Z.pos mt) q r ltac:(lia) Hq Hr) as Hst.
  replace (q * Z.pos mt + r) with (Z.pos ml * 2 ^ 53) in Hst by lia.
  destruct (binary_round_aux_spec q (el - et - 53) (new_location (Z.pos mt) r)
              (Z.pos ml * 2 ^ 53) (Z.pos mt) 54)
    as (m & e & Hres & Hm & He & Hval); try lia; [exact Hst|].
  exists m, e. cbn [xorb].
  split; [exact Hres|]. split; [exact Hm|]. split; [lia|]. exact Hval.
Qed.

(** The arithmetic that relates the rounded quotient and product to the
    exact percentage: [mX/W] is the quotient, [mY/V] the product. *)
Lemma nearest_arith l t W V mX mY p :
  0 ≤ l ≤ t → 0 < t < 2 ^ 32 → 2 ^ 51 ≤ W → 2 ^ 45 ≤ V →
  (mX - 1) * t < l * W < (mX + 1) * t →
  (mY - 1) * W < 100 * mX * V < (mY + 1) * W →
  (2 * p - 1) * V ≤ 2 * mY < (2 * p + 1) * V →
  (2 * p - 1) * t ≤ 200 * l ≤ (2 * p + 1) * t.
Proof.
  change (2 ^ 32) with 4294967296. change (2 ^ 51) with 2251799813685248.
  change (2 ^ 45) with 35184372088832.
  intros Hl Ht HW HV [HX1 HX2] [HY1 HY2] [Hp1 Hp2].
  assert (0 < W * V) as HG by nia.
  assert (2251799813685248 * V ≤ W * V) as HG1 by nia.
  assert (35184372088832 * W ≤ W * V) as HG2 by nia.
  assert (t * V < 4294967296 * V) as HE by nia.
  assert (t * W < 4294967296 * W) as HF by nia.
  split.
  - destruct (Z.le_gt_cases ((2 * p - 1) * t) (200 * l)) as [|Hc]; [done|].
    exfalso.
    assert ((200 * l + 1) * (W * V) ≤ (2 * p - 1) * t * (W * V)) as H1
      by (apply Z.mul_le_mono_nonneg_r; lia).
    assert ((2 * p - 1) * V * (t * W) ≤ 2 * mY * (t * W)) as H2
      by (apply Z.mul_le_mono_nonneg_r; nia).
    assert (mY * W * t < (100 * mX * V + W) * t) as H3
      by (apply Z.mul_lt_mono_pos_r; lia).
    assert (mX * t * V < (l * W + t) * V) as H4
      by (apply Z.mul_lt_mono_pos_r; lia).
    lia.
  - destruct (Z.le_gt_cases (200 * l) ((2 * p + 1) * t)) as [|Hc]; [done|].
    exfalso.
    assert (((2 * p + 1) * t + 1) * (W * V) ≤ 200 * l * (W * V)) as H1
      by (apply Z.mul_le_mono_nonneg_r; lia).
    assert (2 * mY * (t * W) < (2 * p + 1) * V * (t * W)) as H2
      by (apply Z.mul_lt_mono_pos_r; nia).
    assert (100 * mX * V * t < (mY + 1) * W * t) as H3
      by (apply Z.mul_lt_mono_pos_r; lia).
    assert (l * W * V < (mX + 1) * t * V) as H4
      by (apply Z.mul_lt_mono_pos_r; lia).
    lia.
Qed.

Lemma of_Z_100 : JSNumber.of_Z 100 = S754_finite false 7036874417766400 (-46).
Proof. reflexivity. Qed.

(** [Math.round] of a double with a negative exponent. *)
Lemma round_finite m e :
  0 ≤ m → e < 0 →
  ∃ p, JSNumber.round (SFresult m e) = Some p
       ∧ (2 * p - 1) * 2 ^ (- e) ≤ 2 * m < (2 * p + 1) * 2 ^ (- e).
Proof.
  intros Hm He.
  assert (2 ^ (- e) = 2 * 2 ^ (- e - 1)) as Hpow.
  { rewrite <-Z.pow_succ_r by lia. f_equal. lia. }
  assert (0 < 2 ^ (- e - 1)) as Hh by (apply Z.pow_pos_nonneg; lia).
  destruct m as [|pm|pm]; [| |lia]; cbn [SFresult JSNumber.round].
  - exists 0. split; [reflexivity|]. lia.
  - rewrite (proj2 (Z.leb_gt 0 e)) by lia.
    eexists. split; [reflexivity|].
    pose proof (Z.div_mod (Z.pos pm + 2 ^ (- e - 1)) (2 ^ (- e)) ltac:(lia)) as Hdm.
    pose proof (Z.mod_pos_bound (Z.pos pm + 2 ^ (- e - 1)) (2 ^ (- e)) ltac:(lia))
      as Hmod.
    set (p := (Z.pos pm + 2 ^ (- e - 1)) / 2 ^ (- e)) in *.
    set (V := 2 ^ (- e)) in *. lia.
Qed.

(** The double computation of the percentage gives an integer nearest to
    [100 * learned / totalActive]. *)
Lemma percent_nearest l t :
  0 ≤ l ≤ t → 0 < t < 2 ^ 32 →
  ∃ p, percent l t = Some p
       ∧ (2 * p - 1) * t ≤ 200 * l ≤ (2 * p + 1) * t.
Proof.
  intros Hl Ht. unfold percent.
  rewrite (proj2 (Z.eqb_neq t 0)) by lia.
  destruct (of_Z_exact t) as (mt & et & Htz & Het & Hmt & Hdt).
  { split; [lia|]. apply Z.lt_trans with (2 ^ 32); [lia|reflexivity]. }
  rewrite Htz, of_Z_100.
  (* the quotient: [mX / W] with [W = 2^(-eX)] *)
  assert (∃ mX eX,
             JSNumber.div (JSNumber.of_Z l) (S754_finite false mt et)
             = SFresult mX eX
             ∧ 0 ≤ mX ∧ -105 ≤ eX ≤ -51
             ∧ (mX - 1) * t < l * 2 ^ (- eX) < (mX + 1) * t)
    as (mX & eX & -> & HmX & HeX & HX).
  { destruct (Z.eq_dec l 0) as [->|Hl0].
    - exists 0, (-51). split; [reflexivity|]. lia.
    - destruct (of_Z_exact l) as (ml & el & -> & Hel & Hml & Hdl).
      { split; [lia|]. apply Z.le_lt_trans with t; [lia|].
        apply Z.lt_trans with (2 ^ 32); [lia|reflexivity]. }
      pose proof (digits_53 ml Hdl) as Hbl. pose proof (digits_53 mt Hdt) as Hbt.
      assert (el ≤ et) as Hle.
      { destruct (Z.le_gt_cases el et) as [|Hgt]; [done|]. exfalso.
        assert (2 ^ (- et) = 2 ^ (- el) * 2 ^ (el - et)) as Hp
          by (rewrite <-Z.pow_add_r by lia; f_equal; lia).
        assert (2 ^ 1 ≤ 2 ^ (el - et)) by (apply Z.pow_le_mono_r; lia).
        assert (0 < 2 ^ (- el)) by (apply Z.pow_pos_nonneg; lia).
        assert (l * 2 ^ (- et) ≤ t * 2 ^ (- et))
          by (apply Z.mul_le_mono_nonneg_r; [apply Z.pow_nonneg|]; lia).
        rewrite Z.pow_1_r in *. nia. }
      destruct (div_spec ml el mt et Hdl Hdt Hel Het)
        as (mX & eX & Hres & HmX & HeX & Hval).
      exists mX, eX. split; [exact Hres|]. split; [exact HmX|].
      split; [lia|].
      set (kX := eX - (el - et - 53)) in *.
      assert (0 < 2 ^ kX * 2 ^ (- et)) as Hc
        by (apply Z.mul_pos_pos; apply Z.pow_pos_nonneg; lia).
      assert (2 ^ (- eX) * (2 ^ kX * 2 ^ (- et)) = 2 ^ (- el) * 2 ^ 53) as Hpow.
      { rewrite <-!Z.pow_add_r by lia. f_equal. lia. }
      rewrite Hml, Hmt in Hval.
      split; apply (Z.mul_lt_mono_pos_r (2 ^ kX * 2 ^ (- et))); try exact Hc.
      + replace (l * 2 ^ (- eX) * (2 ^ kX * 2 ^ (- et)))
          with (l * (2 ^ (- eX) * (2 ^ kX * 2 ^ (- et)))) by ring.
        rewrite Hpow. lia.
      + replace (l * 2 ^ (- eX) * (2 ^ kX * 2 ^ (- et)))
          with (l * (2 ^ (- eX) * (2 ^ kX * 2 ^ (- et)))) by ring.
        rewrite Hpow. lia. }
  assert (2 ^ 51 ≤ 2 ^ (- eX)) as HW by (apply Z.pow_le_mono_r; lia).
  set (W := 2 ^ (- eX)) in *.
  (* the product: [mY / V] with [V = 2^(-eY)] *)
  assert (∃ mY eY,
             JSNumber.mul (SFresult mX eX)
               (S754_finite false 7036874417766400 (-46))
             = SFresult mY eY
             ∧ 0 ≤ mY ∧ eY ≤ -45
             ∧ (mY - 1) * W < 100 * mX * 2 ^ (- eY) < (mY + 1) * W)
    as (mY & eY & -> & HmY & HeY & HY).
  { destruct mX as [|pX|pX]; [| |lia].
    - exists 0, (-45). split; [reflexivity|].
      assert (0 < 2 ^ 45) by reflexivity. nia.
    - cbn [SFresult]. unfold JSNumber.mul, SFmul. cbn [xorb].
      assert (Z.pos pX ≤ W) as HpX.
      { assert ((Z.pos pX - 1) * t < W * t) by nia.
        assert (Z.pos pX - 1 < W); [|lia].
        apply (Z.mul_lt_mono_pos_r t); lia. }
      assert (2 ^ (53 - eX) = W * 2 ^ 53) as Hj
        by (subst W; rewrite <-Z.pow_add_r by lia; f_equal; lia).
      destruct (binary_round_aux_spec (Z.pos (pX * 7036874417766400))
                  (eX + -46) loc_Exact (Z.pos (pX * 7036874417766400)) 1
                  (53 - eX))
        as (mY & eY & Hres & HmY & HeY & Hval); try lia.
      { apply exact_stands. lia. }
      exists mY, eY. split; [exact Hres|]. split; [exact HmY|].
      split; [lia|].
      set (kY := eY - (eX + -46)) in *.
      assert (0 < 2 ^ 46) as H46 by reflexivity.
      assert (2 ^ kY * 2 ^ (- eY) = W * 2 ^ 46) as Hpow
        by (subst W; rewrite <-!Z.pow_add_r by lia; f_equal; lia).
      assert (0 < 2 ^ (- eY)) as HV by (apply Z.pow_pos_nonneg; lia).
      rewrite Pos2Z.inj_mul in Hval.
      change (Z.pos 7036874417766400) with (100 * 2 ^ 46) in Hval.
      rewrite !Z.mul_1_r in Hval.
      destruct Hval as [Hv1 Hv2].
      apply (Z.mul_lt_mono_pos_r (2 ^ (- eY))) in Hv1, Hv2; try exact HV.
      replace ((mY - 1) * 2 ^ kY * 2 ^ (- eY))
        with ((mY - 1) * (2 ^ kY * 2 ^ (- eY))) in Hv1 by ring.
      replace ((mY + 1) * 2 ^ kY * 2 ^ (- eY))
        with ((mY + 1) * (2 ^ kY * 2 ^ (- eY))) in Hv2 by ring.
      rewrite Hpow in Hv1, Hv2.
      split; apply (Z.mul_lt_mono_pos_r (2 ^ 46)); try exact H46; lia. }
  destruct (round_finite mY eY HmY ltac:(lia)) as (p & Hp & Hround).
  exists p. split; [exact Hp|].
  apply (nearest_arith l t W (2 ^ (- eY)) mX mY p); try done.
  apply Z.pow_le_mono_r; lia.
Qed.

End Binary64.

(** ** Progress *)

Section Progress.
Implicit Types (app : Study).

(** What is left never exceeds the number of active cards. *)
Lemma consistent_remaining app :
  consistent app → 0 ≤ remaining app ≤ totalActive app.
Proof.
  intros [Hperm Hcur]. unfold remaining, totalActive, done, cursor_in_range in *.
  rewrite <-(Permutation_length Hperm).
  destruct (Z.leb_spec (Z.of_nat (length (order (session app))))
              (cursor (session app))); lia.
Qed.

(** An integer within one half of [100 * l / t] is the rounded value,
    or the integer below it at a tie. *)
Lemma round_half_up_nearest l t p :
  0 < t → (2 * p - 1) * t ≤ 200 * l ≤ (2 * p + 1) * t →
  p = round_half_up (100 * l) t
  ∨ (p + 1 = round_half_up (100 * l) t ∧ 200 * l = (2 * p + 1) * t).
Proof.
  intros Ht Hp. unfold round_half_up.
  pose proof (Z.div_mod (2 * (100 * l) + t) (2 * t) ltac:(lia)) as Hdm.
  pose proof (Z.mod_pos_bound (2 * (100 * l) + t) (2 * t) ltac:(lia)) as Hmod.
  set (r := (2 * (100 * l) + t) / (2 * t)) in *.
  destruct (Z.lt_trichotomy r p) as [Hlt|[->|Hgt]].
  - exfalso. assert ((r + 1) * t ≤ p * t) by (apply Z.mul_le_mono_nonneg_r; lia).
    lia.
  - by left.
  - right. assert ((p + 1) * t ≤ r * t) by (apply Z.mul_le_mono_nonneg_r; lia).
    assert (r = p + 1); [|lia].
    destruct (Z.le_gt_cases r (p + 1)) as [|Hgt2]; [lia|]. exfalso.
    assert ((p + 2) * t ≤ r * t) by (apply Z.mul_le_mono_nonneg_r; lia).
    lia.
Qed.

(** C7, as the code has it.  In every reachable state of a session over
    fewer than [2^32] active cards (the bound of a JavaScript array):
    [remaining] is [length(order) - cursor] while the session is active and
    [0] when it is done, [learned = totalActive - remaining] lies between
    [0] and [totalActive], and [progressPercent] is an integer of [0 ..
    100], equal to [0] when [totalActive] is [0].  Otherwise it is
    [Math.round] of the double product [(learned / totalActive) * 100],
    which is an integer nearest to [100 * learned / totalActive]: it is
    [round(100 * learned / totalActive)] except at a tie, where it may be
    the integer below. *)
Theorem progressPercent_nearest app :
  reachable app → totalActive app < 2 ^ 32 →
  remaining app
  = (if done (session app) then 0
     else Z.of_nat (length (order (session app))) - cursor (session app))
  ∧ learned app = totalActive app - remaining app
  ∧ 0 ≤ learned app ≤ totalActive app
  ∧ ∃ p, progressPercent app = Some p
         ∧ 0 ≤ p ≤ 100
         ∧ (totalActive app = 0 → p = 0)
         ∧ (totalActive app ≠ 0 →
            (2 * p - 1) * totalActive app ≤ 200 * learned app
              ≤ (2 * p + 1) * totalActive app
            ∧ (p = round_half_up (100 * learned app) (totalActive app)
               ∨ (p + 1 = round_half_up (100 * learned app) (totalActive app)
                  ∧ 200 * learned app = (2 * p + 1) * totalActive app))).
Proof.
  intros Hreach Hbound.
  pose proof (consistent_remaining app (reachable_consistent app Hreach)) as Hrem.
  split; [reflexivity|]. split; [reflexivity|].
  assert (0 ≤ learned app ≤ totalActive app) as Hl by (unfold learned; lia).
  split; [exact Hl|].
  unfold progressPercent.
  destruct (Z.eq_dec (totalActive app) 0) as [H0|H0].
  - exists 0. rewrite H0. split; [reflexivity|]. split; [lia|]. split; [done|].
    intros Hne. by destruct Hne.
  - destruct (percent_nearest (learned app) (totalActive app) Hl ltac:(lia))
      as (p & Hp & Hnear).
    exists p. split; [exact Hp|].
    assert (0 ≤ p ≤ 100) by nia.
    split; [done|]. split; [done|]. intros _. split; [exact Hnear|].
    apply round_half_up_nearest; [lia|exact Hnear].
Qed.

Lemma progressPercent_nearest_witness :
  let app := step (mount zero_random three_cards None None) Advance in
  reachable app ∧ totalActive app < 2 ^ 32
  ∧ ∃ p, progressPercent app = Some p ∧ 0 ≤ p ≤ 100.
Proof.
  assert (reachable (step (mount zero_random three_cards None None) Advance))
    as Hreach by (apply reachable_step, reachable_mount).
  split; [exact Hreach|]. split; [reflexivity|].
  destruct (progressPercent_nearest _ Hreach eq_refl)
    as (_ & _ & _ & p & Hp & Hran & _).
  exists p. split; [exact Hp | exact Hran].
Defined.

(** C7 as the specification states it fails after 23 of 40 cards: the
    quotient [23/40] is rounded to a double whose product with [100] is
    [57.49999999999999], so [progressPercent] is [57] where
    [round(100 * 23 / 40) = round(57.5)] is [58]. *)
Lemma progressPercent_23_of_40 :
  let app := run (mount zero_random forty_cards None None) (replicate 23 Advance) in
  learned app = 23 ∧ totalActive app = 40
  ∧ progressPercent app = Some 57
  ∧ round_half_up (100 * learned app) (totalActive app) = 58
  ∧ progressPercent app ≠ Some (round_half_up (100 * learned app) (totalActive app)).
Proof. vm_compute. repeat split. discriminate. Qed.

End Progress.

(** * Further properties *)

(** ** The shuffle utility: the ends of the range *)

Section ShuffleRange.
Context {T : Type}.
Implicit Types (arr : list T).

Lemma shuffle_loop_short rand startIndex i arr :
  (i ≤ startIndex)%nat → shuffle_loop rand startIndex i arr = arr.
Proof.
  intros Hi. destruct i as [|i]; [reflexivity|]. cbn [shuffle_loop].
  by rewrite (proj2 (Nat.ltb_ge startIndex (S i))) by lia.
Qed.

Lemma shuffleInPlace_take rand arr startIndex :
  take startIndex (shuffleInPlace rand arr startIndex) = take startIndex arr.
Proof.
  apply list_eq. intros k.
  destruct (decide (k < startIndex)%nat) as [Hk|Hk].
  - rewrite !lookup_take_lt by exact Hk. by apply shuffle_loop_lookup_lt.
  - by rewrite !lookup_take_ge by lia.
Qed.

(** X1.  A range of at most one element is left as it is: the empty array, an
    array of one element, and any start index at or after the last
    position. *)
Theorem shuffleInPlace_short rand arr startIndex :
  (length arr ≤ startIndex + 1)%nat → shuffleInPlace rand arr startIndex = arr.
Proof. intros Hlen. apply shuffle_loop_short. lia. Qed.

(** X2.  The elements from [startIndex] on are a permutation of the elements
    that were there. *)
Theorem shuffleInPlace_range rand arr startIndex :
  drop startIndex (shuffleInPlace rand arr startIndex) ≡ₚ drop startIndex arr.
Proof.
  apply (Permutation_app_inv_l (take startIndex arr)).
  rewrite <-(shuffleInPlace_take rand arr startIndex) at 1.
  rewrite !take_drop. apply shuffle_loop_Permutation.
Qed.

End ShuffleRange.

Lemma shuffleInPlace_short_witness :
  (length [7] ≤ 0 + 1)%nat ∧ shuffleInPlace zero_random [7] 0 = [7].
Proof.
  split; [cbn; lia|]. apply (shuffleInPlace_short zero_random [7] 0%nat).
  cbn. lia.
Defined.

(** ** The active indices are the active cards, in deck order *)

Section ActiveOrder.
Implicit Types (cs : list CardItem).

Lemma active_from_sorted k cs (f : nat → CardItem → Z) :
  (∀ i card, f i card = active_index (k + i) card) →
  StronglySorted Z.lt (filter (λ index, 0 ≤ index) (imap f cs)).
Proof.
  revert k f. induction cs as [|card cs IH]; intros k f Hf; [constructor|].
  assert (∀ i card', (f ∘ S) i card' = active_index (S k + i) card') as Hf'.
  { intros i card'. simpl. rewrite Hf. f_equal. lia. }
  rewrite imap_cons, filter_cons. case_decide as Hhd; [|by apply (IH (S k))].
  constructor; [by apply (IH (S k))|].
  apply Forall_forall. intros x Hx.
  apply (active_from_spec (S k) cs (f ∘ S) Hf') in Hx.
  rewrite Hf. unfold active_index. case_match; lia.
Qed.

Lemma elem_of_getActiveIndices cs index :
  index ∈ getActiveIndices cs
  ↔ ∃ n card, index = Z.of_nat n ∧ cs !! n = Some card
              ∧ isArchived card = false ∧ hasContent card = true.
Proof.
  unfold getActiveIndices. rewrite list_elem_of_filter, elem_of_lookup_imap.
  split.
  - intros (Hpos & n & card & -> & Hn). exists n, card.
    unfold active_index in *.
    destruct (isArchived card), (hasContent card); simpl in *; try lia; done.
  - intros (n & card & -> & Hn & Harch & Hcont). split; [lia|].
    exists n, card. split; [|done]. unfold active_index.
    by rewrite Harch, Hcont.
Qed.

(** X3.  [getActiveIndices] lists the positions of the cards that are not
    archived and have content, each once, in the order of the deck. *)
Theorem getActiveIndices_spec cs :
  StronglySorted Z.lt (getActiveIndices cs)
  ∧ ∀ index,
      index ∈ getActiveIndices cs
      ↔ ∃ n card, index = Z.of_nat n ∧ cs !! n = Some card
                  ∧ isArchived card = false ∧ hasContent card = true.
Proof.
  split; [by apply (active_from_sorted 0%nat cs active_index)|].
  apply elem_of_getActiveIndices.
Qed.

(** X4.  A session over a deck that is not shuffled starts with the active
    cards in the order of the deck, at the first of them, front side up,
    in the direction of the deck. *)
Theorem mount_unshuffled rand d st lv :
  default_shuffle (defaults d) = false →
  let s := session (mount rand d st lv) in
  order s = getActiveIndices (cards d)
  ∧ StronglySorted Z.lt (order s)
  ∧ cursor s = 0 ∧ flipped s = false
  ∧ direction s = default_direction (defaults d).
Proof.
  intros Hs. cbn [mount session]. rewrite initSession_unshuffled by exact Hs.
  cbn [order cursor flipped direction].
  split; [reflexivity|]. split; [|done].
  by apply (active_from_sorted 0%nat (cards d) active_index).
Qed.

Lemma mount_unshuffled_witness :
  default_shuffle (defaults three_cards) = false
  ∧ order (session (mount zero_random three_cards None None))
    = getActiveIndices (cards three_cards).
Proof.
  split; [reflexivity|].
  exact (proj1 (mount_unshuffled zero_random three_cards None None eq_refl)).
Defined.

End ActiveOrder.

(** ** Moving through the session *)

Section Navigation.
Implicit Types (s : Session) (app : Study).

Lemma goToNext_order s : order (goToNext s) = order s.
Proof. unfold goToNext. by case_match. Qed.

Lemma goToNext_done s : done s = true → goToNext s = s.
Proof. intros Hd. unfold goToNext. by rewrite Hd. Qed.

Lemma goToNext_cursor_eq s :
  cursor_in_range s →
  cursor (goToNext s) = Z.min (cursor s + 1) (Z.of_nat (length (order s))).
Proof.
  unfold cursor_in_range, goToNext, done. intros Hs.
  destruct (Z.leb_spec (Z.of_nat (length (order s))) (cursor s)); [lia|].
  cbn [cursor]. case_match eqn:Hlt; [apply Z.ltb_lt in Hlt|apply Z.ltb_ge in Hlt];
    lia.
Qed.

(** X5.  [k] times "Next" move the cursor [k] cards on and stop at the end of
    the order: the cursor is then [min(cursor + k, length(order))], the
    order is untouched, and once the session is done "Next" changes
    nothing at all. *)
Theorem advance_saturates s (k : nat) :
  cursor_in_range s →
  cursor (Nat.iter k goToNext s)
  = Z.min (cursor s + Z.of_nat k) (Z.of_nat (length (order s)))
  ∧ order (Nat.iter k goToNext s) = order s
  ∧ (done (Nat.iter k goToNext s) = true
     → goToNext (Nat.iter k goToNext s) = Nat.iter k goToNext s).
Proof.
  intros Hs.
  assert (cursor_in_range (Nat.iter k goToNext s)
          ∧ cursor (Nat.iter k goToNext s)
            = Z.min (cursor s + Z.of_nat k) (Z.of_nat (length (order s)))
          ∧ order (Nat.iter k goToNext s) = order s) as (_ & Hc & Ho).
  { induction k as [|k (IHr & IHc & IHo)].
    - change (Nat.iter 0 goToNext s) with s. split; [exact Hs|].
      unfold cursor_in_range in Hs. split; [lia|reflexivity].
    - change (Nat.iter (S k) goToNext s) with (goToNext (Nat.iter k goToNext s)).
      split; [by apply goToNext_cursor|].
      rewrite goToNext_order, goToNext_cursor_eq, IHc, IHo by exact IHr.
      split; [lia|reflexivity]. }
  split; [exact Hc|]. split; [exact Ho|]. apply goToNext_done.
Qed.

Lemma advance_saturates_witness :
  let s := session (mount zero_random three_cards None None) in
  cursor_in_range s ∧ cursor (Nat.iter 5 goToNext s) = 3.
Proof.
  assert (cursor_in_range (session (mount zero_random three_cards None None)))
    as H by (unfold cursor_in_range; simpl; lia).
  split; [exact H|].
  exact (proj1 (advance_saturates _ 5 H)).
Defined.

(** X6.  "Previous" stops at the first card: [k] times "Previous" leave the
    cursor at [max(cursor - k, 0)]; it takes back a "Next" made in an
    active state, and from the end of the session it leads to the last
    card. *)
Theorem retreat_saturates s (k : nat) :
  cursor_in_range s →
  cursor (Nat.iter k goToPrevious s) = Z.max (cursor s - Z.of_nat k) 0
  ∧ order (Nat.iter k goToPrevious s) = order s
  ∧ (done s = false → cursor (goToPrevious (goToNext s)) = cursor s)
  ∧ (done s = true → order s ≠ [] → done (goToPrevious s) = false).
Proof.
  intros Hs. unfold cursor_in_range in Hs.
  assert (cursor (Nat.iter k goToPrevious s) = Z.max (cursor s - Z.of_nat k) 0
          ∧ order (Nat.iter k goToPrevious s) = order s) as [Hc Ho].
  { induction k as [|k [IHc IHo]].
    - change (Nat.iter 0 goToPrevious s) with s. split; [lia|reflexivity].
    - change (Nat.iter (S k) goToPrevious s)
        with (goToPrevious (Nat.iter k goToPrevious s)).
      unfold goToPrevious at 1 3. cbn [cursor order]. rewrite IHc.
      split; [|exact IHo].
      destruct (Z.leb_spec (Z.max (cursor s - Z.of_nat k) 0) 0); lia. }
  split; [exact Hc|]. split; [exact Ho|]. split.
  - intros Hd. unfold goToPrevious. cbn [cursor].
    rewrite goToNext_cursor_eq by exact Hs.
    unfold done in Hd. apply Z.leb_gt in Hd.
    destruct (Z.leb_spec (Z.min (cursor s + 1) (Z.of_nat (length (order s)))) 0);
      lia.
  - intros Hd Hne. unfold done in *. apply Z.leb_le in Hd. apply Z.leb_gt.
    unfold goToPrevious. cbn [cursor order].
    destruct (order s); [done|]. rewrite length_cons in *.
    destruct (Z.leb_spec (cursor s) 0); lia.
Qed.

Lemma retreat_saturates_witness :
  let s := session (mount zero_random three_cards None None) in
  cursor_in_range s ∧ cursor (Nat.iter 2 goToPrevious s) = 0.
Proof.
  assert (cursor_in_range (session (mount zero_random three_cards None None)))
    as H by (unfold cursor_in_range; simpl; lia).
  split; [exact H|].
  exact (proj1 (retreat_saturates _ 2 H)).
Defined.

(** X7.  The card never shows an empty text, and switching the direction shows
    the side a flip would show. *)
Theorem shown_side s card :
  shown s card ≠ ""
  ∧ shown (toggleDirection s) card = shown (flipCard s) card.
Proof.
  split.
  - unfold shown, content, or_dash.
    destruct (flipped s);
      [destruct (String.eqb_spec (back (direction s) card) "")
      |destruct (String.eqb_spec (front (direction s) card) "")]; done.
  - destruct s as [o c f []]; destruct f; reflexivity.
Qed.

End Navigation.

(** ** What "Got it" does to the session *)

Section GotIt.
Implicit Types (s : Session) (app : Study) (rand : nat → random_number).

(** "Got it" in an active state of a consistent application. *)
Lemma archive_step_spec rand app :
  consistent app → done (session app) = false →
  ∃ index,
    index ∈ order (session app)
    ∧ currentIndex (session app) = CardIndex index
    ∧ let after := step app (ArchiveCurrent rand) in
      deck after
      = {| name := name (deck app);
           cards := imap (archive_at (CardIndex index)) (cards (deck app));
           defaults := defaults (deck app) |}
      ∧ session after = initSession rand (deck after)
      ∧ stored after = Some (deck after)
      ∧ live after = Some "Card archived"
      ∧ getActiveIndices (cards (deck after))
        = filter (λ i, ¬ is_current (CardIndex index) i)
            (getActiveIndices (cards (deck app)))
      ∧ (length (order (session after)) + 1 = length (order (session app)))%nat
      ∧ consistent after.
Proof.
  intros [Hperm Hcur] Hdone.
  destruct (currentIndex_active (session app)) as (index & Hlook & _ & Hci);
    [apply Hcur | exact Hdone |].
  assert (index ∈ order (session app)) as Hin
    by (apply list_elem_of_lookup; eauto).
  exists index. split; [exact Hin|]. split; [exact Hci|].
  cbv zeta. rewrite (step_archive_active rand app index Hdone Hci).
  unfold deck_effect, save. cbn [deck session stored live cards].
  split; [reflexivity|]. split; [reflexivity|]. split; [reflexivity|].
  split; [reflexivity|]. split; [apply getActiveIndices_archive|].
  assert (NoDup (getActiveIndices (cards (deck app)))) as Hnd
    by apply getActiveIndices_NoDup.
  split.
  - rewrite (Permutation_length (initSession_order rand _)). cbn [cards].
    rewrite getActiveIndices_archive, (Permutation_length Hperm).
    apply filter_current_length; [exact Hnd|]. by rewrite <-Hperm.
  - split; [apply initSession_order | apply initSession_cursor].
Qed.

Lemma initSession_start rand d :
  cursor (initSession rand d) = 0
  ∧ flipped (initSession rand d) = false
  ∧ direction (initSession rand d) = default_direction (defaults d).
Proof. done. Qed.

Lemma of_Z_0 : JSNumber.of_Z 0 = S754_zero false.
Proof. reflexivity. Qed.

Lemma percent_0 t : 0 ≤ t < 2 ^ 53 → percent 0 t = Some 0.
Proof.
  intros Ht. unfold percent.
  destruct (Z.eqb_spec t 0) as [->|Hne]; [reflexivity|].
  destruct (of_Z_exact t ltac:(lia)) as (m & e & -> & _).
  rewrite of_Z_0. reflexivity.
Qed.

(** X8.  In an active state, "Got it" starts the session again over the cards
    that are still active: the current index is gone from the order, the
    cursor is back at [0] with the front side up, the direction is the
    default of the deck again, and the progress is [0] because
    [totalActive] now counts the cards that are left. *)
Theorem got_it_restarts rand app :
  consistent app → done (session app) = false → totalActive app < 2 ^ 32 →
  let after := step app (ArchiveCurrent rand) in
  cursor (session after) = 0
  ∧ flipped (session after) = false
  ∧ direction (session after) = default_direction (defaults (deck app))
  ∧ (∃ index,
        currentIndex (session app) = CardIndex index
        ∧ order (session after)
          ≡ₚ filter (λ i, ¬ is_current (CardIndex index) i) (order (session app)))
  ∧ totalActive after = totalActive app - 1
  ∧ learned after = 0
  ∧ progressPercent after = Some 0.
Proof.
  intros Happ Hdone Hbound.
  destruct (archive_step_spec rand app Happ Hdone)
    as (index & Hin & Hci & Hdeck & Hsess & _ & _ & Hact & Hlen & Hcons).
  cbv zeta in *. set (after := step app (ArchiveCurrent rand)) in *.
  destruct Happ as [Hperm _]. destruct Hcons as [Hperm' _].
  assert (totalActive after = totalActive app - 1) as Htotal.
  { unfold totalActive. rewrite <-(Permutation_length Hperm'),
      <-(Permutation_length Hperm). lia. }
  assert (learned after = 0) as Hlearned.
  { unfold learned, remaining, totalActive, done.
    rewrite <-(Permutation_length Hperm'), Hsess.
    rewrite (proj1 (initSession_start rand (deck after))).
    destruct (Z.leb_spec (Z.of_nat (length (order (initSession rand (deck after))))) 0);
      lia. }
  rewrite Hsess.
  destruct (initSession_start rand (deck after)) as (-> & -> & ->).
  rewrite Hdeck at 1. cbn [defaults].
  split; [reflexivity|]. split; [reflexivity|]. split; [reflexivity|].
  split.
  { exists index. split; [exact Hci|].
    rewrite <-Hsess, Hperm', Hact. by rewrite Hperm. }
  split; [exact Htotal|]. split; [exact Hlearned|].
  unfold progressPercent. rewrite Hlearned. apply percent_0.
  unfold totalActive in *. lia.
Qed.

Lemma got_it_restarts_witness :
  let app := step (mount zero_random three_cards None None) Advance in
  consistent app ∧ done (session app) = false ∧ totalActive app < 2 ^ 32
  ∧ cursor (session (step app (ArchiveCurrent zero_random))) = 0
  ∧ progressPercent (step app (ArchiveCurrent zero_random)) = Some 0.
Proof.
  assert (consistent (step (mount zero_random three_cards None None) Advance))
    as H by (split; [reflexivity | unfold cursor_in_range; simpl; lia]).
  split; [exact H|]. split; [reflexivity|]. split; [reflexivity|].
  pose proof (got_it_restarts zero_random _ H eq_refl eq_refl) as Hthm.
  split; [exact (proj1 Hthm)|].
  exact (proj2 (proj2 (proj2 (proj2 (proj2 (proj2 Hthm)))))).
Defined.

(** X9.  "Got it" once for every card of the order archives them all: after
    as many "Got it" as the order is long, started in an active state, no
    card of the deck is active, the order is empty and the session is
    done; after fewer, the order has that many entries less. *)
Theorem got_it_for_every_card (rands : list (nat → random_number)) app :
  consistent app → done (session app) = false →
  (length rands ≤ length (order (session app)))%nat →
  let after := run app (ArchiveCurrent <$> rands) in
  length (order (session after))
  = (length (order (session app)) - length rands)%nat
  ∧ (length rands = length (order (session app))
     → getActiveIndices (cards (deck after)) = []
       ∧ order (session after) = []
       ∧ done (session after) = true).
Proof.
  intros Happ Hdone Hlen. cbv zeta.
  assert (consistent (run app (ArchiveCurrent <$> rands))
          ∧ length (order (session (run app (ArchiveCurrent <$> rands))))
            = (length (order (session app)) - length rands)%nat) as [Hcons Hl].
  { assert (rands ≠ [] → done (session app) = false) as Hdone' by done.
    clear Hdone. revert app Happ Hdone' Hlen.
    induction rands as [|rand rands IH]; intros app Happ Hdone Hlen.
    - change (run app (ArchiveCurrent <$> [])) with app.
      split; [exact Happ|]. cbn [length]. lia.
    - change (run app (ArchiveCurrent <$> rand :: rands))
        with (run (step app (ArchiveCurrent rand)) (ArchiveCurrent <$> rands)).
      rewrite length_cons in Hlen |- *.
      destruct (archive_step_spec rand app Happ (Hdone ltac:(done)))
        as (index & _ & _ & _ & Hsess & _ & _ & _ & Hlen1 & Hcons1).
      cbv zeta in *. set (app1 := step app (ArchiveCurrent rand)) in *.
      destruct (IH app1) as [Hc Hl]; [exact Hcons1 | | lia |].
      + intros Hne. unfold done. rewrite Hsess at 2.
        rewrite (proj1 (initSession_start rand (deck app1))). apply Z.leb_gt.
        destruct rands; [done|]. rewrite length_cons in Hlen. lia.
      + split; [exact Hc|]. rewrite Hl. lia. }
  split; [exact Hl|]. intros Heq.
  assert (order (session (run app (ArchiveCurrent <$> rands))) = []) as Hnil.
  { apply length_zero_iff_nil. lia. }
  destruct Hcons as [Hperm Hcur].
  split.
  - rewrite Hnil in Hperm. symmetry in Hperm. by apply Permutation_nil_r in Hperm.
  - split; [exact Hnil|]. unfold done. rewrite Hnil. apply Z.leb_le.
    unfold cursor_in_range in Hcur. rewrite Hnil in Hcur. cbn [length] in *. lia.
Qed.

Lemma got_it_for_every_card_witness :
  let app := mount zero_random three_cards None None in
  consistent app ∧ done (session app) = false
  ∧ (3 ≤ length (order (session app)))%nat
  ∧ order (session (run app (ArchiveCurrent <$> replicate 3 zero_random))) = [].
Proof.
  assert (consistent (mount zero_random three_cards None None)) as H
    by (split; [reflexivity | unfold cursor_in_range; simpl; lia]).
  assert (length (replicate 3 zero_random)
          ≤ length (order (session (mount zero_random three_cards None None))))%nat
    as Hlen by (apply Nat.leb_le; reflexivity).
  split; [exact H|]. split; [reflexivity|]. split; [exact Hlen|].
  pose proof (got_it_for_every_card (replicate 3 zero_random) _ H eq_refl Hlen)
    as [_ Hall].
  exact (proj1 (proj2 (Hall eq_refl))).
Defined.

End GotIt.

(** ** The states the application reaches *)

Section Reachable.
Implicit Types (s : Session) (app : Study) (rand : nat → random_number).

(** X10.  In every reachable state the order holds the active indices of the
    deck, each once, and in an active state the entry at the cursor is a
    card of the deck that is not archived and has content: there is always
    a card to show. *)
Theorem active_session_has_card app :
  reachable app →
  NoDup (order (session app))
  ∧ order (session app) ≡ₚ getActiveIndices (cards (deck app))
  ∧ (done (session app) = false →
     ∃ card, currentCard (deck app) (session app) = Some card
             ∧ isArchived card = false ∧ hasContent card = true).
Proof.
  intros Hreach. destruct (reachable_consistent app Hreach) as [Hperm Hcur].
  split; [rewrite Hperm; apply getActiveIndices_NoDup|]. split; [exact Hperm|].
  intros Hdone.
  destruct (currentIndex_active (session app)) as (index & Hlook & _ & Hci);
    [apply Hcur | exact Hdone |].
  assert (index ∈ getActiveIndices (cards (deck app))) as Hin
    by (rewrite <-Hperm; apply list_elem_of_lookup; eauto).
  apply elem_of_getActiveIndices in Hin
    as (n & card & -> & Hcard & Harch & Hcont).
  exists card. unfold currentCard, array_get. rewrite Hci.
  rewrite (proj2 (Z.leb_le 0 (Z.of_nat n))) by lia.
  by rewrite Nat2Z.id.
Qed.

Lemma active_session_has_card_witness :
  let app := step (mount zero_random three_cards None None) Advance in
  reachable app ∧ NoDup (order (session app)).
Proof.
  assert (reachable (step (mount zero_random three_cards None None) Advance))
    as H by (apply reachable_step, reachable_mount).
  split; [exact H|]. exact (proj1 (active_session_has_card _ H)).
Defined.

(** X11.  No operation makes the order longer or adds an active card: the order
    shrinks with "Got it" and is otherwise kept or rearranged. *)
Theorem order_never_grows app o :
  consistent app →
  (length (order (session (step app o))) ≤ length (order (session app)))%nat
  ∧ totalActive (step app o) ≤ totalActive app.
Proof.
  intros Happ.
  assert (length (order (session (step app o)))
          ≤ length (order (session app)))%nat as Hlen.
  { destruct o.
    - done.
    - cbn [step with_session session]. by rewrite goToNext_order.
    - done.
    - destruct (done (session app)) eqn:Hdone.
      + by rewrite step_archive_done.
      + destruct (archive_step_spec rand app Happ Hdone)
          as (index & _ & _ & _ & _ & _ & _ & _ & Hlen & _).
        cbv zeta in Hlen. lia.
    - cbn [step with_session session reshuffleAll order].
      by rewrite shuffleInPlace_length.
    - done. }
  split; [exact Hlen|].
  destruct (step_consistent app o Happ) as [Hperm' _].
  destruct Happ as [Hperm _].
  unfold totalActive.
  rewrite <-(Permutation_length Hperm'), <-(Permutation_length Hperm). lia.
Qed.

Lemma order_never_grows_witness :
  let app := mount zero_random three_cards None None in
  consistent app
  ∧ (length (order (session (step app (ArchiveCurrent zero_random))))
     ≤ length (order (session app)))%nat.
Proof.
  assert (consistent (mount zero_random three_cards None None)) as H
    by (split; [reflexivity | unfold cursor_in_range; simpl; lia]).
  split; [exact H|].
  exact (proj1 (order_never_grows _ (ArchiveCurrent zero_random) H)).
Defined.

(** X12.  Whatever the user does in study mode, the deck in the local storage is
    the deck on the screen, once it was: only "Got it" changes the deck,
    and it saves the deck it installs. *)
Theorem stored_follows_deck app (ops : list operation) :
  stored app = Some (deck app) →
  stored (run app ops) = Some (deck (run app ops)).
Proof.
  revert app. induction ops as [|o ops IH]; intros app Hst; [exact Hst|].
  change (run app (o :: ops)) with (run (step app o) ops). apply IH.
  destruct o; cbn [step with_session stored deck]; try exact Hst.
  unfold deck_replaced, archive_render.
  destruct (archiveCurrentCard (deck app) (session app)) as [s' [[d' m]|]];
    cbn; [reflexivity|exact Hst].
Qed.

Lemma stored_follows_deck_witness :
  let app := mount zero_random three_cards (Some three_cards) None in
  stored app = Some (deck app)
  ∧ stored (run app [Advance; ArchiveCurrent zero_random])
    = Some (deck (run app [Advance; ArchiveCurrent zero_random])).
Proof.
  split; [reflexivity|].
  exact (stored_follows_deck (mount zero_random three_cards (Some three_cards) None)
           [Advance; ArchiveCurrent zero_random] eq_refl).
Defined.

End Reachable.

(** ** The persisted deck *)

Section Persisted.


End Persisted.

(** ** Editing the cards *)

Section Editing.
Implicit Types (cs : list CardItem) (index : Z) (patch : Patch).

Lemma filter_index_delete {T} index (k : nat) (l : list T) :
  filter_index (λ currentIndex, negb (Z.of_nat currentIndex =? index)) k l
  = if bool_decide (Z.of_nat k ≤ index < Z.of_nat (k + length l))
    then delete (Z.to_nat index - k)%nat l else l.
Proof.
  revert k. induction l as [|x l IH]; intros k.
  - cbn. by case_bool_decide.
  - cbn [filter_index]. rewrite IH. destruct (Z.eqb_spec (Z.of_nat k) index) as [<-|Hne].
    + cbn [negb]. rewrite bool_decide_eq_false_2 by lia.
      rewrite bool_decide_eq_true_2 by (cbn [length]; lia).
      by rewrite Nat2Z.id, Nat.sub_diag.
    + cbn [negb]. case_bool_decide as H1; case_bool_decide as H2;
        cbn [length] in *; try lia; [|done].
      replace (Z.to_nat index - k)%nat with (S (Z.to_nat index - S k)) by lia.
      done.
Qed.

(** X14.  [deleteCard] takes the card at [index] out of the list and keeps the
    others in their order; an index that is not a position of the list
    leaves it as it is. *)
Theorem deleteCard_delete index cs :
  deleteCard index cs
  = if bool_decide (0 ≤ index < Z.of_nat (length cs))
    then delete (Z.to_nat index) cs else cs.
Proof.
  unfold deleteCard. rewrite filter_index_delete.
  rewrite Nat.sub_0_r. done.
Qed.

Lemma imap_alter {T} (f : T → T) index (k : nat) (l : list T) :
  imap (λ currentIndex x,
          if Z.of_nat (k + currentIndex) =? index then f x else x) l
  = if bool_decide (Z.of_nat k ≤ index < Z.of_nat (k + length l))
    then alter f (Z.to_nat index - k)%nat l else l.
Proof.
  revert k. induction l as [|x l IH]; intros k.
  - cbn. by case_bool_decide.
  - rewrite imap_cons.
    rewrite (imap_ext _ (λ currentIndex x,
               if Z.of_nat (S k + currentIndex) =? index then f x else x) l)
      by (intros i y _; cbn; by replace (k + S i)%nat with (S (k + i)) by lia).
    rewrite IH. rewrite Nat.add_0_r.
    destruct (Z.eqb_spec (Z.of_nat k) index) as [<-|Hne].
    + rewrite bool_decide_eq_false_2 by lia.
      rewrite bool_decide_eq_true_2 by (cbn [length]; lia).
      by rewrite Nat2Z.id, Nat.sub_diag.
    + case_bool_decide as H1; case_bool_decide as H2;
        cbn [length] in *; try lia; [|done].
      replace (Z.to_nat index - k)%nat with (S (Z.to_nat index - S k)) by lia.
      done.
Qed.

(** X15.  [updateCard] merges the patch into the card at [index] and leaves
    every other card, and the number of cards, as they are; an index that
    is not a position of the list changes nothing. *)
Theorem updateCard_alter index patch cs :
  updateCard index patch cs
  = (if bool_decide (0 ≤ index < Z.of_nat (length cs))
     then alter (spread patch) (Z.to_nat index) cs else cs)
  ∧ length (updateCard index patch cs) = length cs.
Proof.
  split; [|apply length_imap].
  unfold updateCard. rewrite <-(Nat.sub_0_r (Z.to_nat index)).
  apply (imap_alter (spread patch) index 0).
Qed.

(** The active indices depend only on which cards are archived and which
    have content. *)
Lemma getActiveIndices_ext cs cs' :
  Forall2 (λ card card', isArchived card = isArchived card'
                         ∧ hasContent card = hasContent card') cs cs' →
  getActiveIndices cs = getActiveIndices cs'.
Proof.
  intros H.
  assert (∀ g : nat → CardItem → Z,
    (∀ i card card',
      isArchived card = isArchived card' → hasContent card = hasContent card' →
      g i card = g i card') →
    filter (λ index, 0 ≤ index) (imap g cs)
    = filter (λ index, 0 ≤ index) (imap g cs')) as Hgen.
  { induction H as [|card card' cs cs' [Ha Hc] _ IH]; intros g Hg; [done|].
    rewrite !imap_cons, !filter_cons, (Hg 0%nat card card' Ha Hc).
    rewrite (IH (g ∘ S)) by (intros; by apply Hg). done. }
  apply Hgen. intros i card card' Ha Hc. unfold active_index. by rewrite Ha, Hc.
Qed.

Lemma setArchivedState_imap index (b : bool) cs :
  setArchivedState index b cs
  = imap (λ currentIndex card,
            if Z.of_nat currentIndex =? index
            then {| q := q card; a := a card; archived := Some b |}
            else card) cs.
Proof. reflexivity. Qed.

(** X16.  "Archive" in the editor does to the cards what "Got it" does in a
    session whose current card is the card at [index]: the card is marked
    as archived, and its index, and no other, leaves the active indices. *)
Theorem setArchivedState_true_archive index cs :
  setArchivedState index true cs = imap (archive_at (CardIndex index)) cs
  ∧ getActiveIndices (setArchivedState index true cs)
    = filter (λ i, i ≠ index) (getActiveIndices cs).
Proof.
  assert (setArchivedState index true cs
          = imap (archive_at (CardIndex index)) cs) as Heq.
  { rewrite setArchivedState_imap. apply imap_ext. intros i card _.
    unfold archive_at, is_current, archive.
    destruct (Z.eqb_spec (Z.of_nat i) index) as [->|Hne].
    - by rewrite decide_True.
    - rewrite decide_False; [done|]. intros [=]. lia. }
  split; [exact Heq|]. rewrite Heq, getActiveIndices_archive.
  apply list_filter_iff. intros i. unfold is_current. split.
  - intros Hn ->. by apply Hn.
  - intros Hn [=]. by apply Hn.
Qed.

(** X17.  "Restore" undoes "Archive": a card that was not archived is, after
    both, a card with the same texts that is not archived, every other
    card is untouched, and the active indices are what they were. *)
Theorem archive_then_restore index cs :
  (∀ card, array_get cs index = Some card → isArchived card = false) →
  let restored := setArchivedState index false (setArchivedState index true cs) in
  restored = setArchivedState index false cs
  ∧ Forall2 (λ card card', q card = q card' ∧ a card = a card'
                           ∧ isArchived card = isArchived card') restored cs
  ∧ getActiveIndices restored = getActiveIndices cs.
Proof.
  intros Hcard restored.
  assert (restored = setArchivedState index false cs) as Heq.
  { unfold restored. rewrite !setArchivedState_imap.
    apply list_eq. intros n. rewrite !list_lookup_imap.
    destruct (cs !! n) as [card|]; [cbn|done].
    by destruct (Z.of_nat n =? index). }
  assert (Forall2 (λ card card', q card = q card' ∧ a card = a card'
                           ∧ isArchived card = isArchived card') restored cs)
    as Hsame.
  { rewrite Heq, setArchivedState_imap. apply Forall2_same_length_lookup.
    split; [apply length_imap|]. intros n card card' Hl Hl'.
    rewrite list_lookup_imap, Hl' in Hl. cbn in Hl.
    destruct (Z.eqb_spec (Z.of_nat n) index) as [<-|Hne];
      injection Hl as <-; [|done].
    cbn. repeat split. symmetry. apply Hcard.
    unfold array_get. rewrite (proj2 (Z.leb_le 0 (Z.of_nat n))) by lia.
    by rewrite Nat2Z.id. }
  split; [exact Heq|]. split; [exact Hsame|].
  apply getActiveIndices_ext. eapply Forall2_impl; [exact Hsame|].
  cbn. intros card card' (Hq & Ha & Harch). split; [exact Harch|].
  unfold hasContent. by rewrite Hq, Ha.
Qed.

Lemma archive_then_restore_witness :
  getActiveIndices
    (setArchivedState 1 false (setArchivedState 1 true (cards three_cards)))
  = getActiveIndices (cards three_cards).
Proof.
  refine (proj2 (proj2 (archive_then_restore 1 (cards three_cards) _))).
  intros card [= <-]. reflexivity.
Defined.

Lemma entries_lookup cs (card : CardItem) (n : nat) :
  (card, n) ∈ imap (λ (index : nat) card, (card, index)) cs ↔ cs !! n = Some card.
Proof.
  rewrite elem_of_lookup_imap. split.
  - by intros (i & x & [= -> ->] & Hl).
  - intros Hl. by exists n, card.
Qed.

Lemma elem_of_activeCards cs card (n : nat) :
  (card, n) ∈ activeCards cs ↔ cs !! n = Some card ∧ isArchived card = false.
Proof.
  unfold activeCards. rewrite list_elem_of_filter, entries_lookup. cbn. tauto.
Qed.

Lemma elem_of_archivedCards cs card (n : nat) :
  (card, n) ∈ archivedCards cs ↔ cs !! n = Some card ∧ isArchived card = true.
Proof.
  unfold archivedCards. rewrite list_elem_of_filter, entries_lookup. cbn. tauto.
Qed.

Lemma activeCards_archivedCards cs :
  activeCards cs ++ archivedCards cs
  ≡ₚ imap (λ (index : nat) card, (card, index)) cs.
Proof.
  unfold activeCards, archivedCards.
  rewrite <-(filter_app_complement (λ entry, isArchived (fst entry) = false)
               (imap (λ (index : nat) card, (card, index)) cs)) at 3.
  apply Permutation_app; [done|].
  rewrite (list_filter_iff (λ entry, isArchived (fst entry) = true)
             (λ entry, ¬ isArchived (fst entry) = false)); [done|].
  intros [card n]. cbn. by destruct (isArchived card).
Qed.

Lemma activeCards_archivedCards_length cs :
  (length (activeCards cs) + length (archivedCards cs) = length cs)%nat.
Proof. rewrite <-length_app, activeCards_archivedCards. apply length_imap. Qed.

Lemma activeCards_addCard cs :
  activeCards (addCard cs)
  = activeCards cs ++ [({| q := ""; a := ""; archived := None |}, length cs)].
Proof.
  unfold addCard, activeCards. rewrite imap_app, filter_app. cbn.
  by rewrite Nat.add_0_r.
Qed.

(** X18.  The editor shows every card once: each card is, with its position,
    in the list of the active cards or in the list of the archived cards,
    and in one of them only. *)
Theorem cards_partition cs :
  activeCards cs ++ archivedCards cs
  ≡ₚ imap (λ (index : nat) card, (card, index)) cs
  ∧ (length (activeCards cs) + length (archivedCards cs) = length cs)%nat
  ∧ ∀ card (n : nat),
      ((card, n) ∈ activeCards cs ↔ cs !! n = Some card ∧ isArchived card = false)
      ∧ ((card, n) ∈ archivedCards cs ↔ cs !! n = Some card ∧ isArchived card = true).
Proof.
  split; [apply activeCards_archivedCards|].
  split; [apply activeCards_archivedCards_length|].
  intros card n. split; [apply elem_of_activeCards|apply elem_of_archivedCards].
Qed.

(** X19.  [addCard] appends a card without text.  The new card is the last of
    the active cards of the editor, at the position that was the length of
    the list, and it is not studied: the active indices stay as they
    are. *)
Theorem addCard_appends_blank cs :
  let blank := {| q := ""; a := ""; archived := None |} in
  addCard cs !! length cs = Some blank
  ∧ (∀ n, (n < length cs)%nat → addCard cs !! n = cs !! n)
  ∧ activeCards (addCard cs) = activeCards cs ++ [(blank, length cs)]
  ∧ archivedCards (addCard cs) = archivedCards cs
  ∧ getActiveIndices (addCard cs) = getActiveIndices cs.
Proof.
  intros blank.
  split; [unfold addCard; by rewrite lookup_app_r, Nat.sub_diag by lia|].
  split; [intros n Hn; unfold addCard; by rewrite lookup_app_l|].
  split; [apply activeCards_addCard|].
  unfold addCard. split.
  - unfold archivedCards. rewrite imap_app, filter_app. cbn. apply app_nil_r.
  - unfold getActiveIndices. rewrite imap_app, filter_app. cbn. apply app_nil_r.
Qed.

(** X20.  After [addCard], the list item that carries [newCardRef], to which the
    view scrolls, is the item of the new card exactly when no card is
    archived: the item is chosen by comparing the position of the card
    among all cards with the number of active cards. *)
Theorem newCardRef_after_addCard cs :
  newCardRef (addCard cs)
  = [({| q := ""; a := ""; archived := None |}, length cs)]
  ↔ archivedCards cs = [].
Proof.
  pose proof (activeCards_archivedCards_length cs) as Hlen.
  unfold newCardRef. rewrite activeCards_addCard, length_app. cbn [length].
  rewrite filter_app. split.
  - intros Heq.
    assert (({| q := ""; a := ""; archived := None |}, length cs)
            ∈ [({| q := ""; a := ""; archived := None |}, length cs)]) as Hin
      by apply list_elem_of_here.
    rewrite <-Heq in Hin. apply elem_of_app in Hin as [Hin|Hin].
    + apply list_elem_of_filter in Hin as [_ Hin].
      apply elem_of_activeCards in Hin as [Hl _]. apply lookup_lt_Some in Hl. lia.
    + apply list_elem_of_filter in Hin as [Hpos _]. cbn in Hpos.
      apply length_zero_iff_nil. lia.
  - intros Hnil. rewrite Hnil in Hlen. cbn [length] in Hlen.
    rewrite filter_cons_True, filter_nil by (cbn; lia).
    assert (filter (λ entry : CardItem * nat,
                      Z.of_nat (snd entry)
                      = Z.of_nat (length (activeCards cs) + 1) - 1)
              (activeCards cs) = []) as ->; [|done].
    apply elem_of_nil_inv. intros [card n] Hin.
    apply list_elem_of_filter in Hin as [Hpos Hin]. cbn in Hpos.
    apply elem_of_activeCards in Hin as [Hl _]. apply lookup_lt_Some in Hl. lia.
Qed.

End Editing.

(** ** Imported documents *)

Section Imported.
Variable Number_toString : spec_float → string.

(** X21.  Having the schema is not enough for an import: one card that is
    [null] makes the import fail as a whole, and no card of the document
    is taken over. *)
Theorem import_null_card_aborts w json version elements :
  get json "schemaVersion" = Some version → is_one version = true →
  get json "cards" = Some (VArray elements) →
  VNull ∈ elements →
  valid_schema json = true
  ∧ importJSON Number_toString true (Some (Some json)) w
    = (w, Some "Import failed").
Proof.
  intros Hv H1 Hc Hin. split.
  - unfold valid_schema. by rewrite Hv, Hc, H1.
  - unfold importJSON, onchange. cbn [mbind option_bind].
    unfold import_json. rewrite Hv. cbn [mbind option_bind]. rewrite H1.
    cbn [negb]. rewrite Hc. cbn [mbind option_bind].
    rewrite (mapM_None_2 (import_card Number_toString) elements); [done|].
    apply Exists_exists. by exists VNull.
Qed.

Lemma import_card_archived element card :
  import_card Number_toString element = Some card →
  archived card = Some (isArchived card).
Proof.
  unfold import_card. intros H.
  repeat match type of H with
         | (?m ≫= _) = Some _ =>
             destruct m; cbn [mbind option_bind] in H; [|done]
         end.
  by injection H as <-.
Qed.

(** X22.  A successful import takes one card for every element of [cards], in
    their order, and every card it installs carries a boolean [archived];
    the direction is [A2Q] only for a document whose [defaults.direction]
    is the string ["A2Q"]. *)
Theorem imported_cards_shape w json imported :
  importJSON Number_toString true (Some (Some json)) w
  = (imported, Some "Set imported") →
  ∃ elements,
    get json "cards" = Some (VArray elements)
    ∧ Forall2 (λ element card, import_card Number_toString element = Some card)
        elements (w_cards imported)
    ∧ Forall (λ card, archived card = Some (isArchived card)) (w_cards imported)
    ∧ (w_direction imported = A2Q
       ↔ ∃ json_defaults, get json "defaults" = Some json_defaults
           ∧ get_optional json_defaults "direction" = VString "A2Q").
Proof.
  unfold importJSON, onchange. cbn [mbind option_bind].
  destruct (import_json Number_toString json) as [imported'|] eqn:Himp; [|done].
  intros [= ->]. unfold import_json in Himp.
  destruct (get json "schemaVersion") as [version|];
    cbn [mbind option_bind] in Himp; [|done].
  destruct (negb (is_one version)); [done|].
  destruct (get json "cards") as [[| | | | |elements|]|];
    cbn [mbind option_bind] in Himp; try done.
  destruct (mapM (import_card Number_toString) elements)
    as [importedCards|] eqn:Hcards; cbn [mbind option_bind] in Himp; [|done].
  destruct (get json "name") as [json_name|];
    cbn [mbind option_bind] in Himp; [|done].
  destruct (get json "defaults") as [json_defaults|];
    cbn [mbind option_bind] in Himp; [|done].
  injection Himp as <-. cbn [w_cards w_direction].
  apply mapM_Some in Hcards.
  exists elements. split; [done|]. split; [exact Hcards|]. split.
  - apply Forall_forall. intros card Hin.
    apply list_elem_of_lookup in Hin as [n Hn].
    destruct (Forall2_lookup_r _ _ _ _ _ Hcards Hn) as (element & _ & He).
    by apply import_card_archived in He.
  - split.
    + intros Hdir. exists json_defaults. split; [done|].
      destruct (get_optional json_defaults "direction") as [| |b|x|text|l|m];
        try done.
      destruct (String.eqb_spec text "A2Q") as [Heq|Hne];
        [by rewrite Heq | done].
    + intros (json_defaults' & [= <-] & ->). reflexivity.
Qed.

Lemma coerce_card_idemp card : coerce_card (coerce_card card) = coerce_card card.
Proof. reflexivity. Qed.

Lemma coerce_deck_idemp d : coerce_deck (coerce_deck d) = coerce_deck d.
Proof.
  destruct d as [name_ cards_ defaults_].
  unfold coerce_deck. cbn [name cards defaults]. f_equal.
  - destruct (String.eqb name_ "") eqn:Heq; [done|]. by rewrite Heq.
  - rewrite <-list_fmap_compose. apply list_fmap_ext. intros i card _.
    apply coerce_card_idemp.
Qed.

(** X23.  What an import installs survives every later export and import as it
    is, and an import never changes which cards are studied: the cards
    keep their texts, their positions and whether they are archived. *)
Theorem import_export_stable d w w0 :
  importJSON Number_toString true
    (Some (Some (exportJSON (Some (coerce_deck d)) w))) w0
  = (working_of_deck (coerce_deck d), Some "Set imported")
  ∧ importJSON Number_toString true
      (Some (Some (exportJSON None (working_of_deck (coerce_deck d))))) w0
    = (working_of_deck (coerce_deck d), Some "Set imported")
  ∧ getActiveIndices (cards (coerce_deck d)) = getActiveIndices (cards d).
Proof.
  assert (import_json Number_toString (deck_to_json (coerce_deck d))
          = Some (working_of_deck (coerce_deck d))) as Himp
    by (by rewrite import_json_deck_to_json, coerce_deck_idemp).
  split; [|split].
  - unfold importJSON, onchange, exportJSON. cbn [mbind option_bind].
    by rewrite Himp.
  - unfold importJSON, onchange, exportJSON. cbn [mbind option_bind].
    change (working_to_json (working_of_deck (coerce_deck d)))
      with (deck_to_json (coerce_deck d)).
    by rewrite Himp.
  - apply getActiveIndices_ext. cbn [coerce_deck cards].
    apply Forall2_fmap_l, Forall_Forall2_diag, Forall_forall.
    intros card _. done.
Qed.

End Imported.

Lemma import_null_card_aborts_witness :
  valid_schema null_card = true
  ∧ importJSON sample_toString true (Some (Some null_card))
      (working_of_deck three_cards)
    = (working_of_deck three_cards, Some "Import failed").
Proof.
  apply (import_null_card_aborts sample_toString (working_of_deck three_cards)
           null_card (VNumber (JSNumber.of_Z 1))
           [card_to_json (sample_card "1"); VNull]);
    [reflexivity | reflexivity | reflexivity |].
  apply list_elem_of_further, list_elem_of_here.
Defined.

Lemma imported_cards_shape_witness :
  importJSON sample_toString true (Some (Some (deck_to_json unnamed_deck)))
    (working_of_deck three_cards)
  = (working_of_deck (coerce_deck unnamed_deck), Some "Set imported")
  ∧ ∃ elements,
      get (deck_to_json unnamed_deck) "cards" = Some (VArray elements).
Proof.
  split; [reflexivity|].
  destruct (imported_cards_shape sample_toString (working_of_deck three_cards)
              (deck_to_json unnamed_deck)
              (working_of_deck (coerce_deck unnamed_deck)) eq_refl)
    as (elements & H & _).
  by exists elements.
Defined.

(** ** The hash of a deck *)

Section Hash.
Implicit Types (h code x y : Z) (json : list Z).

Lemma ToInt32_range x : - 2 ^ 31 ≤ ToInt32 x < 2 ^ 31.
Proof. unfold ToInt32. pose proof (Z.mod_pos_bound (x + 2 ^ 31) (2 ^ 32)). lia. Qed.

Lemma ToUint32_ToInt32 x : ToUint32 (ToInt32 x) = ToUint32 x.
Proof.
  unfold ToUint32, ToInt32.
  change (2 ^ 31) with 2147483648. change (2 ^ 32) with 4294967296.
  Z.div_mod_to_equations. lia.
Qed.

Lemma lxor_mod_pow2 x y n :
  0 ≤ n → Z.lxor x y mod 2 ^ n = Z.lxor (x mod 2 ^ n) (y mod 2 ^ n).
Proof.
  intros Hn. apply Z.bits_inj'. intros k Hk.
  destruct (Z.lt_ge_cases k n).
  - rewrite Z.mod_pow2_bits_low, !Z.lxor_spec, !Z.mod_pow2_bits_low by lia. done.
  - rewrite Z.mod_pow2_bits_high, !Z.lxor_spec, !Z.mod_pow2_bits_high by lia. done.
Qed.

(** One round, on the unsigned value of the hash. *)
Lemma hash_step_uint32 h code :
  0 ≤ code < 2 ^ 31 →
  ToUint32 (hash_step h code) = Z.lxor ((33 * ToUint32 h) mod 2 ^ 32) code.
Proof.
  intros Hc. unfold hash_step, xor32, ToUint32.
  rewrite lxor_mod_pow2 by lia.
  fold (ToUint32 (ToInt32 (shl5 h + h))). fold (ToUint32 (ToInt32 code)).
  rewrite !ToUint32_ToInt32. unfold ToUint32 at 2.
  rewrite (Z.mod_small code) by lia. f_equal.
  unfold ToUint32, shl5, ToInt32. rewrite Z.shiftl_mul_pow2 by lia.
  change (2 ^ 5) with 32. change (2 ^ 31) with 2147483648.
  change (2 ^ 32) with 4294967296.
  Z.div_mod_to_equations. lia.
Qed.

Lemma hash_loop_uint32 json h :
  Forall (λ code, 0 ≤ code < 2 ^ 16) json →
  ToUint32 (foldl hash_step h json)
  = foldl (λ h code, Z.lxor ((33 * h) mod 2 ^ 32) code) (ToUint32 h) json.
Proof.
  intros Hjson. revert h. induction Hjson as [|code json Hc _ IH]; intros h; [done|].
  cbn [foldl]. rewrite IH, hash_step_uint32 by lia. done.
Qed.

Lemma lxor_cancel_r x y code : Z.lxor x code = Z.lxor y code → x = y.
Proof.
  intros H. rewrite <-(Z.lxor_0_r x), <-(Z.lxor_0_r y), <-(Z.lxor_nilpotent code).
  by rewrite <-!Z.lxor_assoc, H.
Qed.

Lemma lxor_cancel_l x code code' : Z.lxor x code = Z.lxor x code' → code = code'.
Proof.
  rewrite !(Z.lxor_comm x). apply lxor_cancel_r.
Qed.

Lemma ToUint32_range x : 0 ≤ ToUint32 x < 2 ^ 32.
Proof. apply Z.mod_pos_bound. lia. Qed.

Lemma times_33_injective x y :
  0 ≤ x < 2 ^ 32 → 0 ≤ y < 2 ^ 32 →
  (33 * x) mod 2 ^ 32 = (33 * y) mod 2 ^ 32 → x = y.
Proof.
  change (2 ^ 32) with 4294967296. intros Hx Hy H.
  assert ((1041204193 * ((33 * x) mod 4294967296)) mod 4294967296 = x) as Hx'
    by (Z.div_mod_to_equations; lia).
  assert ((1041204193 * ((33 * y) mod 4294967296)) mod 4294967296 = y) as Hy'
    by (Z.div_mod_to_equations; lia).
  by rewrite <-Hx', <-Hy', H.
Qed.

(** A round maps hashes that differ to hashes that differ. *)
Lemma hash_step_injective h h' code :
  0 ≤ code < 2 ^ 16 →
  ToUint32 h ≠ ToUint32 h' →
  ToUint32 (hash_step h code) ≠ ToUint32 (hash_step h' code).
Proof.
  intros Hc Hne Heq. rewrite !hash_step_uint32 in Heq by lia.
  apply lxor_cancel_r, times_33_injective in Heq; auto using ToUint32_range.
Qed.

Lemma hash_loop_injective json h h' :
  Forall (λ code, 0 ≤ code < 2 ^ 16) json →
  ToUint32 h ≠ ToUint32 h' →
  ToUint32 (foldl hash_step h json) ≠ ToUint32 (foldl hash_step h' json).
Proof.
  intros Hjson. revert h h'.
  induction Hjson as [|code json Hc _ IH]; intros h h' Hne; [done|].
  cbn [foldl]. by apply IH, hash_step_injective.
Qed.

(** The value of a list of digits to the base 36. *)
Lemma digits36_value fuel x acc :
  0 ≤ x < 36 ^ Z.of_nat fuel → (0 < fuel)%nat →
  foldl (λ v d, v * 36 + d) 0 (digits36 fuel x acc)
  = foldl (λ v d, v * 36 + d) x acc.
Proof.
  revert x acc. induction fuel as [|fuel IH]; intros x acc Hx Hfuel; [lia|].
  cbn [digits36]. destruct (Z.eqb_spec (x / 36) 0) as [H0|Hn0].
  - cbn [foldl]. f_equal. Z.div_mod_to_equations. lia.
  - assert (0 < fuel)%nat as Hpos.
    { destruct fuel; [|lia]. exfalso. apply Hn0. apply Z.div_small.
      change (36 ^ Z.of_nat 1) with 36 in Hx. lia. }
    rewrite IH; [|split|exact Hpos].
    + cbn [foldl]. f_equal. Z.div_mod_to_equations. lia.
    + apply Z.div_pos; lia.
    + apply Z.div_lt_upper_bound; [lia|].
      rewrite Nat2Z.inj_succ, Z.pow_succ_r in Hx by lia. lia.
Qed.

Lemma digits36_range fuel x acc :
  Forall (λ d, 0 ≤ d < 36) acc → Forall (λ d, 0 ≤ d < 36) (digits36 fuel x acc).
Proof.
  revert x acc. induction fuel as [|fuel IH]; intros x acc Hacc; [done|].
  cbn [digits36].
  assert (Forall (λ d, 0 ≤ d < 36) (x mod 36 :: acc)) as Hacc'
    by (constructor; [apply Z.mod_pos_bound; lia | done]).
  destruct (x / 36 =? 0); [done|]. by apply IH.
Qed.

Lemma digit36_injective d d' :
  0 ≤ d < 36 → 0 ≤ d' < 36 → digit36 d = digit36 d' → d = d'.
Proof.
  intros Hd Hd' H. unfold digit36 in H.
  apply (f_equal N_of_ascii) in H.
  rewrite !N_ascii_embedding in H
    by (destruct (d <? 10), (d' <? 10); lia).
  destruct (Z.ltb_spec d 10), (Z.ltb_spec d' 10); lia.
Qed.

Lemma toString36_injective x y :
  0 ≤ x < 2 ^ 32 → 0 ≤ y < 2 ^ 32 → toString36 x = toString36 y → x = y.
Proof.
  intros Hx Hy H. unfold toString36 in H.
  apply (f_equal String.list_ascii_of_string) in H.
  rewrite !String.list_ascii_of_string_of_list_ascii in H.
  assert (digits36 7 x [] = digits36 7 y []) as Hd.
  { pose proof (digits36_range 7 x [] (Forall_nil_2 _)) as Rx.
    pose proof (digits36_range 7 y [] (Forall_nil_2 _)) as Ry.
    revert Rx Ry H. generalize (digits36 7 x []) (digits36 7 y []).
    intros l. induction l as [|d l IH]; intros [|d' l'] Rl Rl' H; try done.
    injection H as Hd H. inversion Rl; inversion Rl'; subst.
    f_equal; [by apply digit36_injective | by apply IH]. }
  apply (f_equal (foldl (λ v d, v * 36 + d) 0)) in Hd.
  rewrite !digits36_value in Hd by (change (36 ^ Z.of_nat 7) with 78364164096;
                                    change (2 ^ 32) with 4294967296 in *; lia).
  exact Hd.
Qed.

(** X24.  [hashDeck] computes the hash of Bernstein with exclusive or on
    unsigned 32-bit integers, and prints it to the base 36: that the
    intermediate values of the loop are signed makes no difference, and
    two hashes are the same text only when they are the same number. *)
Theorem hashDeck_djb2_xor json :
  Forall (λ code, 0 ≤ code < 2 ^ 16) json →
  hashDeck json = toString36 (djb2_xor json)
  ∧ 0 ≤ djb2_xor json < 2 ^ 32
  ∧ ∀ json', Forall (λ code, 0 ≤ code < 2 ^ 16) json' →
      (hashDeck json = hashDeck json' ↔ djb2_xor json = djb2_xor json').
Proof.
  assert (∀ json0, Forall (λ code, 0 ≤ code < 2 ^ 16) json0 →
            ToUint32 (foldl hash_step 5381 json0) = djb2_xor json0) as Heq
    by (intros json0 H0; by rewrite hash_loop_uint32).
  intros Hjson. unfold hashDeck.
  split; [by rewrite Heq|]. split; [rewrite <-Heq by done; apply ToUint32_range|].
  intros json' Hjson'. rewrite !Heq by done. split; [|by intros ->].
  apply toString36_injective; rewrite <-Heq by done; apply ToUint32_range.
Qed.

(** X25.  After an export the deck counts as unchanged; after "New", and after
    any change that replaces one code unit of the exported document by
    another, it counts as changed: a substitution of one character never
    goes unnoticed. *)
Theorem export_detects_substitution (before after : list Z) code code' :
  Forall (λ code, 0 ≤ code < 2 ^ 16) (before ++ code :: after) →
  0 ≤ code' < 2 ^ 16 → code ≠ code' →
  dirtySinceExport (onExport (before ++ code :: after))
    (before ++ code :: after) = false
  ∧ dirtySinceExport (onExport (before ++ code :: after))
      (before ++ code' :: after) = true
  ∧ dirtySinceExport None (before ++ code' :: after) = true.
Proof.
  intros Hjson Hc' Hne. apply Forall_app in Hjson as [Hbefore Hjson].
  apply Forall_cons in Hjson as [Hc Hafter].
  unfold dirtySinceExport, onExport.
  split; [by rewrite bool_decide_eq_true_2|].
  split; [|by rewrite bool_decide_eq_false_2].
  rewrite bool_decide_eq_false_2; [done|]. intros [= Heq].
  unfold hashDeck in Heq.
  apply toString36_injective in Heq; [|apply ToUint32_range..].
  rewrite !foldl_app in Heq. cbn [foldl] in Heq. revert Heq.
  apply hash_loop_injective; [done|].
  rewrite !hash_step_uint32 by lia. intros Heq.
  by apply lxor_cancel_l in Heq.
Qed.

Lemma hashDeck_djb2_xor_witness :
  Forall (λ code, 0 ≤ code < 2 ^ 16) [123; 125]
  ∧ hashDeck [123; 125] = toString36 (djb2_xor [123; 125]).
Proof.
  assert (Forall (λ code, 0 ≤ code < 2 ^ 16) [123; 125]) as H
    by (repeat constructor; lia).
  split; [exact H|]. exact (proj1 (hashDeck_djb2_xor [123; 125] H)).
Defined.

Lemma export_detects_substitution_witness :
  dirtySinceExport (onExport ([123] ++ 49 :: [125])) ([123] ++ 50 :: [125]) = true.
Proof.
  refine (proj1 (proj2 (export_detects_substitution [123] [125] 49 50 _ _ _)));
    [repeat constructor; lia | lia | lia].
Defined.

End Hash.

(** ** The debounced save of the editor *)

Section Debounce.
Import Autosave.
Context {T : Type}.
Implicit Types (t : Timers T) (call : T).

Lemma clearTimeout_one (id : nat) call :
  clearTimeout id [(id, call)] = [].
Proof. unfold clearTimeout. by rewrite filter_cons_False by (cbn; auto). Qed.

Lemma trigger_one_pending t call :
  one_pending t → timeouts (trigger call t) = [(next_timeout t, call)].
Proof.
  intros [Hnil|(id & call' & Href & Hlist)]; unfold trigger; cbn [timeouts].
  - rewrite Hnil. by destruct (timerRef t).
  - by rewrite Href, Hlist, clearTimeout_one.
Qed.

Lemma cancel_one_pending t : one_pending t → timeouts (cancel t) = [].
Proof.
  intros [Hnil|(id & call' & Href & Hlist)]; unfold cancel.
  - destruct (timerRef t); [cbn [timeouts]; by rewrite Hnil | done].
  - rewrite Href. cbn [timeouts]. by rewrite Hlist, clearTimeout_one.
Qed.

Lemma elapse_one_pending t : one_pending t → timeouts (snd (elapse t)) = [].
Proof.
  intros [Hnil|(id & call' & Href & Hlist)]; unfold elapse.
  - by rewrite Hnil.
  - by rewrite Hlist.
Qed.

Lemma one_pending_trigger t call : one_pending t → one_pending (trigger call t).
Proof.
  intros H. right. exists (next_timeout t), call.
  split; [done|]. by apply trigger_one_pending.
Qed.

Lemma one_pending_nil t : timeouts t = [] → one_pending t.
Proof. by left. Qed.

Lemma one_pending_apply_op t op : one_pending t → one_pending (apply_op t op).
Proof.
  intros H. destruct op as [call| |]; cbn [apply_op].
  - by apply one_pending_trigger.
  - by apply one_pending_nil, cancel_one_pending.
  - by apply one_pending_nil, elapse_one_pending.
Qed.

Lemma one_pending_ops (ops : list (timer_op T)) :
  one_pending (foldl apply_op fresh ops).
Proof.
  induction ops as [|op ops IH] using rev_ind; [by left|].
  rewrite foldl_app. cbn [foldl]. by apply one_pending_apply_op.
Qed.

(** X26.  Whatever was triggered, cancelled or has fired before, a
    [useDebounced] has at most one call pending; [trigger] replaces the
    pending call by the new one, which is the call made when the delay has
    passed, and after [cancel] no call is pending and none is made. *)
Theorem useDebounced_one_pending (ops : list (timer_op T)) call :
  let t := foldl apply_op fresh ops in
  (length (timeouts t) ≤ 1)%nat
  ∧ timeouts (trigger call t) = [(next_timeout t, call)]
  ∧ elapse (trigger call t)
    = (Some call, {| timerRef := Some (next_timeout t); timeouts := [];
                     next_timeout := S (next_timeout t) |})
  ∧ timeouts (cancel t) = []
  ∧ elapse (cancel t) = (None, cancel t).
Proof.
  intros t. pose proof (one_pending_ops ops) as H. fold t in H.
  pose proof (trigger_one_pending t call H) as Htr.
  pose proof (cancel_one_pending t H) as Hca.
  split; [|split; [exact Htr|split; [|split; [exact Hca|]]]].
  - destruct H as [->|(id & call' & _ & ->)]; cbn; lia.
  - unfold elapse. rewrite Htr. reflexivity.
  - unfold elapse. by rewrite Hca.
Qed.

End Debounce.

Section EditorSaves.
Import Autosave.
Variable Number_toString : spec_float → string.
Implicit Types (ed : Editor) (w deck : Working) (e : event).

Lemma saves_current_one_pending ed : saves_current ed → one_pending (timers ed).
Proof.
  intros [H|(id & Href & H)]; [by left|]. right. by exists id, (working ed).
Qed.

Lemma render_timeouts ed :
  one_pending (timers ed) →
  timerRef (timers (render ed)) = Some (next_timeout (timers ed))
  ∧ timeouts (timers (render ed)) = [(next_timeout (timers ed), working ed)].
Proof.
  intros H. unfold render. cbn [timers]. split; [done|].
  by apply trigger_one_pending.
Qed.

Lemma render_saves_current ed : one_pending (timers ed) → saves_current (render ed).
Proof.
  intros H. destruct (render_timeouts ed H) as [Href Hlist].
  right. by exists (next_timeout (timers ed)).
Qed.

Lemma mount_timeouts deck (pending : Timers Working) saved_ :
  timeouts pending = [] →
  timerRef (timers (mount deck pending saved_)) = Some (next_timeout pending)
  ∧ timeouts (timers (mount deck pending saved_))
    = [(next_timeout pending, deck)].
Proof.
  intros H. unfold mount.
  apply (render_timeouts
           {| working := deck; deck_prop := deck;
              timers := {| timerRef := None; timeouts := timeouts pending;
                           next_timeout := next_timeout pending |};
              saved := saved_ |}).
  by left.
Qed.

Lemma mount_saves_current deck (pending : Timers Working) saved_ :
  timeouts pending = [] → saves_current (mount deck pending saved_).
Proof.
  intros H. destruct (mount_timeouts deck pending saved_ H) as [Href Hlist].
  right. by exists (next_timeout pending).
Qed.

Lemma cancel_cancel_timeouts (t : Timers Working) :
  one_pending t → timeouts (cancel (cancel t)) = [].
Proof.
  intros H. apply cancel_one_pending, one_pending_nil, cancel_one_pending, H.
Qed.

Lemma step_saves_current ed e :
  saves_current ed → saves_current (step Number_toString ed e).
Proof.
  intros Hed. pose proof (saves_current_one_pending ed Hed) as Hone.
  destruct e as [w|remount|confirmed file|proceed remount|]; cbn [step].
  - by apply render_saves_current.
  - destruct Hed as [Hnil|(id & Href & Hlist)]; unfold elapse.
    + rewrite Hnil. by left.
    + rewrite Hlist. destruct remount.
      * apply mount_saves_current. apply cancel_one_pending. by left.
      * right. exists (next_timeout (timers ed)). cbn [timers working].
        split; [done|]. unfold trigger. cbn [timerRef timeouts next_timeout].
        by destruct (timerRef (timers ed)).
  - destruct (importJSON Number_toString confirmed file (working ed))
      as [imported message].
    case_bool_decide.
    + apply render_saves_current. cbn [timers].
      by apply one_pending_nil, cancel_one_pending.
    + left. cbn [timers]. by apply cancel_one_pending.
  - destruct proceed; [destruct remount|].
    + apply mount_saves_current. by apply cancel_cancel_timeouts.
    + apply render_saves_current. cbn [timers].
      apply one_pending_trigger, one_pending_nil. by apply cancel_one_pending.
    + left. cbn [timers]. by apply cancel_one_pending.
  - apply mount_saves_current. by apply cancel_one_pending.
Qed.

Lemma start_saves_current deck : saves_current (start deck).
Proof. by apply mount_saves_current. Qed.

Lemma reachable_saves_current ed :
  reachable Number_toString ed → saves_current ed.
Proof.
  induction 1 as [deck|ed e _ IH];
    [apply start_saves_current | by apply step_saves_current].
Qed.

(** X27.  The editor never saves a state that is out of date: in every state it
    reaches at most one save is pending, and the deck this save will hand
    to [onSave] is made of the working copy as it is then.  So when the
    timeout fires, the effect on [[deck]] finds the state it sets. *)
Theorem autosave_saves_current ed remount :
  reachable Number_toString ed →
  (length (timeouts (timers ed)) ≤ 1)%nat
  ∧ (∀ id w, (id, w) ∈ timeouts (timers ed) →
             w = working ed ∧ timerRef (timers ed) = Some id)
  ∧ (step Number_toString ed (Timeout remount) = ed
     ∨ (saved (step Number_toString ed (Timeout remount))
        = saved ed ++ [working ed]
        ∧ working (step Number_toString ed (Timeout remount)) = working ed
        ∧ deck_prop (step Number_toString ed (Timeout remount)) = working ed)).
Proof.
  intros Hreach.
  destruct (reachable_saves_current ed Hreach) as [Hnil|(id & Href & Hlist)].
  - rewrite Hnil. split; [cbn; lia|]. split; [by intros ?? ?%elem_of_nil|].
    left. cbn [step]. unfold elapse. by rewrite Hnil.
  - rewrite Hlist. split; [cbn; lia|]. split.
    + by intros id' w [= -> ->]%list_elem_of_singleton.
    + right. cbn [step]. unfold elapse. rewrite Hlist. by destruct remount.
Qed.

Lemma timeout_step ed remount :
  timeouts (timers ed) ≠ [] → saves_current ed →
  let ed' := step Number_toString ed (Timeout remount) in
  saved ed' = saved ed ++ [working ed]
  ∧ working ed' = working ed
  ∧ timeouts (timers ed') ≠ [] ∧ saves_current ed'.
Proof.
  intros Hne Hed ed'.
  assert (saves_current ed') as Hed' by by apply step_saves_current.
  destruct Hed as [Hnil|(id & Href & Hlist)]; [done|].
  pose (pending := mkTimers Working (timerRef (timers ed)) []
                    (next_timeout (timers ed))).
  assert (ed' = if remount
                then mount (working ed) (cancel pending) (saved ed ++ [working ed])
                else {| working := working ed; deck_prop := working ed;
                        timers := trigger (working ed) pending;
                        saved := saved ed ++ [working ed] |}) as Hstep
    by (unfold ed'; cbn [step]; unfold elapse; by rewrite Hlist).
  clearbody ed'. subst ed'. destruct remount.
  - split; [done|]. split; [done|]. split; [|done].
    rewrite (proj2 (mount_timeouts (working ed) (cancel pending)
                      (saved ed ++ [working ed])
                      (cancel_one_pending pending (or_introl eq_refl)))).
    done.
  - split; [done|]. split; [done|]. split; [|done].
    cbn [timers]. unfold trigger. cbn [timeouts]. by intros [_ ?]%app_eq_nil.
Qed.

(** X28.  The editor saves without end: from the start, without any input, each
    time the delay has passed the deck is handed to [onSave] once more and
    the next save is pending. *)
Theorem autosave_repeats deck (remounts : list bool) :
  let ed := run Number_toString (start deck) (Timeout <$> remounts) in
  saved ed = replicate (length remounts) deck
  ∧ working ed = deck
  ∧ ∃ id, timeouts (timers ed) = [(id, deck)].
Proof.
  assert (∀ ed0, saves_current ed0 → timeouts (timers ed0) ≠ [] →
            let ed := run Number_toString ed0 (Timeout <$> remounts) in
            saved ed = saved ed0 ++ replicate (length remounts) (working ed0)
            ∧ working ed = working ed0
            ∧ timeouts (timers ed) ≠ [] ∧ saves_current ed) as Hgen.
  { induction remounts as [|remount remounts IH]; intros ed0 Hed0 Hne.
    - cbn. by rewrite app_nil_r.
    - destruct (timeout_step ed0 remount Hne Hed0) as (Hs & Hw & Hne' & Hed').
      cbv zeta in *.
      change (run Number_toString ed0 (Timeout <$> remount :: remounts))
        with (run Number_toString (step Number_toString ed0 (Timeout remount))
                (Timeout <$> remounts)).
      destruct (IH _ Hed' Hne') as (Hs2 & Hw2 & Hne2 & Hed2).
      cbv zeta in *. rewrite Hs2, Hw2, Hs, Hw.
      cbn [length replicate]. by rewrite <-app_assoc. }
  intros ed.
  destruct (mount_timeouts deck fresh [] eq_refl) as [_ Hstart].
  destruct (Hgen (start deck) (start_saves_current deck))
    as (Hs & Hw & Hne & Hed).
  { unfold start. by rewrite Hstart. }
  cbv zeta in *. fold ed in Hs, Hw, Hne, Hed.
  split; [exact Hs|]. split; [exact Hw|].
  destruct Hed as [Hnil|(id & _ & Hlist)]; [done|].
  exists id. by rewrite Hlist, Hw.
Qed.

(** X29.  An edit is not saved when, before the delay has passed, the user
    declines the confirmation of an import or of "New", or visits the
    study mode: the pending save is cancelled.  After a declined
    confirmation the edit stays in the working copy and no save is pending,
    so that nothing is saved until the view renders again; after the visit
    the edit is gone, and the editor shows the deck of [App]. *)
Theorem cancelled_save_drops_edit ed w file remount :
  reachable Number_toString ed →
  let edited := step Number_toString ed (Edit w) in
  timeouts (timers edited) = [(next_timeout (timers ed), w)]
  ∧ (∀ e, e = Import false file ∨ e = New false remount →
       let declined := step Number_toString edited e in
       working declined = w ∧ saved declined = saved ed
       ∧ timeouts (timers declined) = []
       ∧ step Number_toString declined (Timeout remount) = declined)
  ∧ (let back := step Number_toString edited Study in
     working back = deck_prop ed ∧ saved back = saved ed
     ∧ ∃ id, timeouts (timers back) = [(id, deck_prop ed)]).
Proof.
  intros Hreach edited.
  pose proof (saves_current_one_pending _ (reachable_saves_current ed Hreach))
    as Hone.
  assert (one_pending (timers edited)) as Hone'
    by (apply saves_current_one_pending, step_saves_current,
          reachable_saves_current, Hreach).
  pose proof (cancel_one_pending _ Hone') as Hcancel.
  split; [|split].
  - unfold edited. cbn [step].
    apply (render_timeouts {| working := w; deck_prop := deck_prop ed;
                              timers := timers ed; saved := saved ed |} Hone).
  - intros e [->| ->] declined; unfold declined; cbn [step importJSON];
      cbn [working saved timers bool_decide]; rewrite ?bool_decide_eq_false_2 by done;
      cbn [working saved timers];
      (split; [done|]); (split; [done|]); (split; [exact Hcancel|]);
      unfold elapse; cbn [timers]; by rewrite Hcancel.
  - intros back. unfold back. cbn [step].
    split; [done|]. split; [done|].
    exists (next_timeout (cancel (timers edited))).
    apply mount_timeouts, Hcancel.
Qed.

End EditorSaves.

Lemma autosave_saves_current_witness :
  let ed := Autosave.step sample_toString
              (Autosave.start (working_of_deck three_cards))
              (Autosave.Edit (working_of_deck unnamed_deck)) in
  Autosave.reachable sample_toString ed
  ∧ (length (Autosave.timeouts (Autosave.timers ed)) ≤ 1)%nat.
Proof.
  assert (Autosave.reachable sample_toString
            (Autosave.step sample_toString
               (Autosave.start (working_of_deck three_cards))
               (Autosave.Edit (working_of_deck unnamed_deck)))) as H
    by apply Autosave.reachable_step, Autosave.reachable_start.
  split; [exact H|].
  exact (proj1 (autosave_saves_current sample_toString _ true H)).
Defined.

Lemma cancelled_save_drops_edit_witness :
  let ed := Autosave.start (working_of_deck three_cards) in
  Autosave.reachable sample_toString ed
  ∧ Autosave.timeouts
      (Autosave.timers
         (Autosave.step sample_toString ed
            (Autosave.Edit (working_of_deck unnamed_deck))))
    = [(Autosave.next_timeout (Autosave.timers ed), working_of_deck unnamed_deck)].
Proof.
  assert (Autosave.reachable sample_toString
            (Autosave.start (working_of_deck three_cards))) as H
    by apply Autosave.reachable_start.
  split; [exact H|].
  exact (proj1 (cancelled_save_drops_edit sample_toString _
                  (working_of_deck unnamed_deck) None true H)).
Defined.

(** ** The name of the exported file *)

Section Download.
Implicit Types (s name : string) (in_run : bool).

Lemma replace_spaces_nonempty s : s ≠ "" → replace_spaces false s ≠ "".
Proof.
  destruct s as [|c1 [|c2 [|c3 s3]]]; [done|..]; intros _; cbn [replace_spaces];
    repeat match goal with
           | |- context [if ?b then _ else _] => destruct b
           end; done.
Qed.

Lemma replace_spaces_no_space in_run s (c : ascii) :
  c ∈ String.list_ascii_of_string (replace_spaces in_run s) →
  JSString.is_space1 c = false.
Proof.
  remember (String.length s) as n eqn:Hn.
  assert (String.length s ≤ n)%nat as Hle by lia. clear Hn.
  revert in_run s Hle. induction n as [|n IH]; intros in_run s Hle.
  { destruct s; [|cbn in Hle; lia]. by intros ?%elem_of_nil. }
  assert (∀ rest, (String.length rest ≤ n)%nat →
            c ∈ String.list_ascii_of_string
                  (if in_run then replace_spaces true rest
                   else String "_" (replace_spaces true rest)) →
            JSString.is_space1 c = false) as Hunder.
  { intros rest Hrest. destruct in_run; [by apply IH|].
    cbn [String.list_ascii_of_string].
    intros [->|Hin]%elem_of_cons; [done | by apply (IH true rest)]. }
  destruct s as [|c1 s1]; [by intros ?%elem_of_nil|].
  cbn [String.length] in Hle. cbn [replace_spaces].
  destruct (JSString.is_space1 c1) eqn:H1; [apply Hunder; lia|].
  destruct s1 as [|c2 s2].
  { cbn. by intros ->%list_elem_of_singleton. }
  cbn [String.length] in Hle.
  destruct (JSString.is_space2 c1 c2); [apply Hunder; lia|].
  assert (c ∈ String.list_ascii_of_string
                (String c1 (replace_spaces false (String c2 s2))) →
          JSString.is_space1 c = false) as Hkeep.
  { cbn [String.list_ascii_of_string].
    intros [->|Hin]%elem_of_cons; [done|].
    apply (IH false (String c2 s2)); [cbn [String.length]; lia | done]. }
  destruct s2 as [|c3 s3]; [exact Hkeep|].
  cbn [String.length] in Hle.
  destruct (JSString.is_space3 c1 c2 c3); [apply Hunder; lia | exact Hkeep].
Qed.

Lemma replace_spaces_blank s :
  JSString.trimStart s = "" →
  replace_spaces true s = "" ∧ (s ≠ "" → replace_spaces false s = "_").
Proof.
  unfold JSString.trimStart.
  remember (String.length s) as n eqn:Hn.
  assert (String.length s ≤ n)%nat as Hle by lia. clear Hn.
  revert s Hle. induction n as [|n IH]; intros s Hle.
  { destruct s; [done | cbn in Hle; lia]. }
  destruct s as [|c1 s1]; [done|].
  cbn [String.length] in Hle. cbn [JSString.strip replace_spaces].
  destruct (JSString.is_space1 c1).
  { intros Hs. destruct (IH s1 ltac:(lia) Hs) as [Ht _]. by rewrite Ht. }
  destruct s1 as [|c2 s2]; [done|]. cbn [String.length] in Hle.
  destruct (JSString.is_space2 c1 c2).
  { intros Hs. destruct (IH s2 ltac:(lia) Hs) as [Ht _]. by rewrite Ht. }
  destruct s2 as [|c3 s3]; [done|]. cbn [String.length] in Hle.
  destruct (JSString.is_space3 c1 c2 c3); [|done].
  intros Hs. destruct (IH s3 ltac:(lia) Hs) as [Ht _]. by rewrite Ht.
Qed.

(** X30.  The exported file is never called [.json]: the name of the deck with
    every run of white space replaced by an underscore comes before the
    extension, and [quick_cards] for the empty name only.  The result has
    no blank, tabulator or line break, and a name of white space alone
    gives [_.json]. *)
Theorem download_stem name :
  ∃ stem,
    download name = stem +:+ ".json" ∧ stem ≠ ""
    ∧ (name = "" ∧ stem = "quick_cards"
       ∨ name ≠ "" ∧ stem = replace_spaces false name)
    ∧ (∀ c : ascii, c ∈ String.list_ascii_of_string stem →
                    JSString.is_space1 c = false)
    ∧ (name ≠ "" → JSString.trimStart name = "" → stem = "_").
Proof.
  unfold download. destruct (String.eqb_spec (replace_spaces false name) "")
    as [Hempty|Hne].
  - assert (name = "") as -> by
        (destruct (decide (name = "")) as [|Hn]; [done|];
         by apply replace_spaces_nonempty in Hn).
    exists "quick_cards". split; [done|]. split; [done|].
    split; [by left|]. split; [|done].
    intros c Hc. cbn in Hc.
    repeat (apply elem_of_cons in Hc as [->|Hc]; [reflexivity|]).
    by apply elem_of_nil in Hc.
  - assert (name ≠ "") as Hn by (by intros ->).
    exists (replace_spaces false name). split; [done|]. split; [done|].
    split; [by right|]. split.
    + intros c. apply replace_spaces_no_space.
    + intros _ Hblank. by apply replace_spaces_blank.
Qed.

End Download.
